(** * preact-custom-element: the custom-element bridge, embedded in Rocq

    A shallow embedding of the registration module (the variant with slot,
    context and DOM-node support): the name-casing helpers, the value
    predicates, the projection of DOM nodes, the slot projector, the
    context bridge, the element factory and the lifecycle callbacks,
    followed by the properties proved about them.

    Conventions of the embedding.
    - A JavaScript string is a [string].  The regular expressions of the
      module only test the ASCII classes [A-Z], [a-z] and [\w], and they
      are run by a backtracking matcher; case conversion is that of the
      ASCII letters.
    - A JavaScript object used as a dictionary ([_props], [_slots], the
      attribute list of an element, the [detail] of an event) is a [gmap]
      keyed by strings; a key that is absent reads as [undefined].  The
      map holds the entries of the object itself: the properties that
      every object inherits ([Object_prototype_names]) are not in it, and
      a property that turns on the read of an absent entry is stated for
      the other names.
    - An object that is compared with [===] carries its reference.
    - Mutation of [this] is explicit state passing on the record [element].
    - The platform is given: an element is an HTML element, so that
      [setAttribute] lower-cases the name it gets, which is taken to be a
      valid attribute name; the notification of an attribute change is
      delivered before [setAttribute] returns, for observed attributes
      only, also when the text of the attribute stays the same; an event
      visits the targets on its way outwards until a listener stops it.
    - The rendering engine is a service: every call to [render] or [hydrate]
      is appended to the log [rendered] of the element. *)

From stdpp Require Import base option list strings pretty gmap fin_maps.
From Stdlib Require Import Ascii String ZArith.

Local Open Scope string_scope.

Set Warnings "-register-all,-clear-no-such-hyp".
Set Default Proof Using "Type".

(** ** Characters *)

Module Char.

Definition code (c : ascii) : nat := nat_of_ascii c.

(** [A-Z] *)
Definition is_upper (c : ascii) : bool :=
  (65 <=? code c)%nat && (code c <=? 90)%nat.

(** [a-z] *)
Definition is_lower (c : ascii) : bool :=
  (97 <=? code c)%nat && (code c <=? 122)%nat.

(** [0-9] *)
Definition is_digit (c : ascii) : bool :=
  (48 <=? code c)%nat && (code c <=? 57)%nat.

(** [\w], that is [A-Za-z0-9_] *)
Definition is_word (c : ascii) : bool :=
  is_upper c || is_lower c || is_digit c || (code c =? 95)%nat.

(** [toLowerCase] and [toUpperCase] on one ASCII code unit. *)
Definition to_lower (c : ascii) : ascii :=
  if is_upper c then ascii_of_nat (code c + 32) else c.

Definition to_upper (c : ascii) : ascii :=
  if is_lower c then ascii_of_nat (code c - 32) else c.

End Char.

(** ** Strings *)

Fixpoint str_map (f : ascii → ascii) (s : string) : string :=
  match s with
  | EmptyString => EmptyString
  | String c t => String (f c) (str_map f t)
  end.

Fixpoint str_take (n : nat) (s : string) : string :=
  match n, s with
  | S k, String c t => String c (str_take k t)
  | _, _ => EmptyString
  end.

Fixpoint str_drop (n : nat) (s : string) : string :=
  match n, s with
  | S k, String _ t => str_drop k t
  | _, _ => s
  end.

Fixpoint str_forall (p : ascii → bool) (s : string) : bool :=
  match s with
  | EmptyString => true
  | String c t => p c && str_forall p t
  end.

Definition toLowerCase : string → string := str_map Char.to_lower.
Definition toUpperCase : string → string := str_map Char.to_upper.

(** ** [String.prototype.replace] with a global regular expression

    [matcher rest] is the length of the match that the expression finds when
    it is tried at the position where [rest] begins, if there is one; the
    expressions of this module look at no character before that position and
    never match the empty string.  [replacer m offset] is the callback: it
    gets the matched text and the offset of the match in the whole string.
    The scan goes from left to right; [skip] counts the characters of the
    current match still to step over, so that the next attempt starts right
    after the match. *)

Section Replace.

Variable matcher : string → option nat.
Variable replacer : string → nat → string.

Fixpoint replace_from (offset skip : nat) (s : string) : string :=
  match s with
  | EmptyString => EmptyString
  | String c t =>
      match skip with
      | S k => replace_from (S offset) k t
      | O =>
          match matcher s with
          | Some (S k) =>
              replacer (str_take (S k) s) offset +:+ replace_from (S offset) k t
          | _ => String c (replace_from (S offset) 0 t)
          end
      end
  end.

Definition replace_all (s : string) : string := replace_from 0 0 s.

(** The same with an expression that is not global: only the first match
    is replaced. *)
Fixpoint replace_first (offset : nat) (s : string) : string :=
  match s with
  | EmptyString => EmptyString
  | String c t =>
      match matcher s with
      | Some (S k) => replacer (str_take (S k) s) offset +:+ str_drop (S k) s
      | _ => String c (replace_first (S offset) t)
      end
  end.

End Replace.

(** ** Regular expressions

    The constructs that the expressions of the module are made of, and
    the backtracking matcher of the language: alternatives are tried from
    left to right, [+] is greedy and gives characters back one iteration
    at a time, and a negative look-ahead consumes nothing.  [pos] counts
    the characters consumed so far and [k] is what remains to be matched;
    the fuel bounds the iterations of [+], each of which consumes a
    character. *)

Inductive regex : Type :=
| rx_empty
| rx_class (p : ascii → bool)
| rx_seq (r1 r2 : regex)
| rx_alt (r1 r2 : regex)
| rx_plus (r : regex)
| rx_not_ahead (r : regex).

Fixpoint rx_run (fuel : nat)
    : regex → nat → string → (nat → string → option nat) → option nat :=
  match fuel with
  | O => λ _ _ _ _, None
  | S n =>
      fix go (r : regex) (pos : nat) (s : string) (k : nat → string → option nat)
          : option nat :=
        match r with
        | rx_empty => k pos s
        | rx_class p =>
            match s with
            | String c t => if p c then k (S pos) t else None
            | EmptyString => None
            end
        | rx_seq r1 r2 => go r1 pos s (λ pos' s', go r2 pos' s' k)
        | rx_alt r1 r2 =>
            match go r1 pos s k with
            | Some m => Some m
            | None => go r2 pos s k
            end
        | rx_plus r' =>
            go r' pos s
              (λ pos' s',
                 match rx_run n (rx_plus r') pos' s' k with
                 | Some m => Some m
                 | None => k pos' s'
                 end)
        | rx_not_ahead r' =>
            match go r' pos s (λ pos' _, Some pos') with
            | Some _ => None
            | None => k pos s
            end
        end
  end.

(** The length of the match of [r] at the head of [s], if it matches. *)
Definition rx_matcher (r : regex) (s : string) : option nat :=
  rx_run (S (String.length s)) r 0 s (λ pos _, Some pos).

Global Arguments rx_matcher : simpl never.

(** The expression that matches the characters of [s]. *)
Fixpoint rx_lit (s : string) : regex :=
  match s with
  | EmptyString => rx_empty
  | String c t => rx_seq (rx_class (Ascii.eqb c)) (rx_lit t)
  end.

(** ** The name-casing helpers *)

(** [/[A-Z]+(?![a-z])|[A-Z]/] *)
Definition kebab_regex : regex :=
  rx_alt
    (rx_seq (rx_plus (rx_class Char.is_upper)) (rx_not_ahead (rx_class Char.is_lower)))
    (rx_class Char.is_upper).

(** [($, c) => (c ? '-' : '') + $.toLowerCase()]: the expression has no
    capture group, so the second argument of the callback is the offset of
    the match, and the hyphen is left out exactly at offset 0. *)
Definition kebab_replacer (m : string) (offset : nat) : string :=
  (match offset with O => "" | S _ => "-" end) +:+ toLowerCase m.

Definition toKebabCase (str : string) : string :=
  replace_all (rx_matcher kebab_regex) kebab_replacer str.

(** The rest of the scan of [toKebabCase], from the offset [offset] on. *)
Definition kebab_from (offset : nat) (rest : string) : string :=
  replace_from (rx_matcher kebab_regex) kebab_replacer offset 0 rest.

(** [/-(\w)/] *)
Definition camel_regex : regex := rx_seq (rx_lit "-") (rx_class Char.is_word).

(** [(_, c) => (c ? c.toUpperCase() : '')]: [c] is the captured character,
    the second one of the match. *)
Definition camel_replacer (m : string) (offset : nat) : string :=
  match m with
  | String _ (String c _) => String (Char.to_upper c) EmptyString
  | _ => ""
  end.

Definition toCamelCase (str : string) : string :=
  replace_all (rx_matcher camel_regex) camel_replacer str.

(** [capitalize]: [str.charAt(0).toUpperCase() + str.slice(1)] *)
Definition capitalize (str : string) : string :=
  match str with
  | EmptyString => EmptyString
  | String c t => String (Char.to_upper c) t
  end.

(** [/(true)|(false)/] *)
Definition true_false_regex : regex := rx_alt (rx_lit "true") (rx_lit "false").

(** *** The match of [toKebabCase] in closed form *)

(** Length of the run of [A-Z] at the head of [s]. *)
Fixpoint upper_run (s : string) : nat :=
  match s with
  | String c t => if Char.is_upper c then S (upper_run t) else 0
  | EmptyString => 0
  end.

Definition starts_lower (s : string) : bool :=
  match s with
  | String c _ => Char.is_lower c
  | EmptyString => false
  end.

(** What [kebab_regex] matches at the head of [s] (lemma
    [rx_matcher_kebab]).  With a run of [n >= 1] capitals there, the
    greedy [[A-Z]+] first takes all [n]; when a lower-case letter follows
    the run, the look-ahead rejects that and the expression backtracks to
    [n - 1] capitals, after which a capital follows and the look-ahead
    holds.  With [n = 1] the first alternative then has nothing left, and
    the second alternative [[A-Z]] matches the single capital. *)
Definition kebab_matcher (s : string) : option nat :=
  match upper_run s with
  | O => None
  | S k =>
      if starts_lower (str_drop (S k) s)
      then Some (match k with O => 1 | S _ => k end)
      else Some (S k)
  end.

Definition not_upper (c : ascii) : bool := negb (Char.is_upper c).

(** *** The two casings of a name *)

Definition is_hyphen (c : ascii) : bool := Ascii.eqb "-" c.

Definition starts_with (p : ascii → bool) (s : string) : bool :=
  match s with
  | String c _ => p c
  | EmptyString => false
  end.

(** The rest of the scan of [toCamelCase], from the offset [offset] on. *)
Definition camel_from (offset : nat) (rest : string) : string :=
  replace_from (rx_matcher camel_regex) camel_replacer offset 0 rest.

(** What [camel_regex] matches at the head of [s] (lemma
    [rx_matcher_camel]): a hyphen and the word character after it. *)
Definition camel_matcher (s : string) : option nat :=
  match s with
  | String c (String d _) => if is_hyphen c && Char.is_word d then Some 2 else None
  | _ => None
  end.

(** A name in kebab case: no capital, no hyphen in front, and every hyphen
    is followed by a lower-case letter and then by something other than a
    hyphen (a word after a hyphen has two letters at least, unless it is
    the last one). *)
Fixpoint kebab_words (s : string) : bool :=
  match s with
  | EmptyString => true
  | String c t =>
      if is_hyphen c then
        match t with
        | String d u =>
            Char.is_lower d && negb (starts_with is_hyphen u) && kebab_words u
        | EmptyString => false
        end
      else not_upper c && kebab_words t
  end.

Definition kebab_name (s : string) : bool :=
  negb (starts_with is_hyphen s) && kebab_words s.

(** A name in camel case: no hyphen, no capital in front, and no two
    capitals in a row. *)
Fixpoint camel_words (s : string) : bool :=
  match s with
  | EmptyString => true
  | String c t =>
      negb (is_hyphen c)
      && negb (Char.is_upper c && starts_with Char.is_upper t)
      && camel_words t
  end.

Definition camel_name (s : string) : bool :=
  negb (starts_with Char.is_upper s) && camel_words s.

(** No hyphen of [s] is followed by a word character. *)
Fixpoint no_hyphen_word (s : string) : bool :=
  match s with
  | EmptyString => true
  | String c t => negb (is_hyphen c && starts_with Char.is_word t) && no_hyphen_word t
  end.

(** *** The key of a listener *)

(** [s] starts with the characters of [p]. *)
Fixpoint str_prefix (p s : string) : bool :=
  match p, s with
  | EmptyString, _ => true
  | String a p', String b s' => Ascii.eqb a b && str_prefix p' s'
  | String _ _, EmptyString => false
  end.

(** Neither [true] nor [false] occurs in [s]. *)
Fixpoint no_flag (s : string) : bool :=
  negb (str_prefix "true" s) && negb (str_prefix "false" s)
  && match s with
     | String _ t => no_flag t
     | EmptyString => true
     end.

(** [Array.from(new Set(xs))]: the distinct elements, each at the place of
    its first occurrence. *)
Fixpoint array_from_set (xs : list string) : list string :=
  match xs with
  | [] => []
  | x :: t => x :: filter (λ y, y ≠ x) (array_from_set t)
  end.

(** ** DOM nodes *)

Inductive node : Type :=
| Text (data : string)
| Element (nodeName : string) (attributes : list (string * string))
    (childNodes : list node)
| ProcessingInstruction (target data : string)
| Comment (data : string).

Definition ELEMENT_NODE : nat := 1.
Definition TEXT_NODE : nat := 3.

Definition nodeType (n : node) : nat :=
  match n with
  | Element _ _ _ => 1
  | Text _ => 3
  | ProcessingInstruction _ _ => 7
  | Comment _ => 8
  end.

(** First value bound to [k] in a list of attributes. *)
Fixpoint getAttribute (k : string) (attrs : list (string * string)) : option string :=
  match attrs with
  | [] => None
  | (k', v) :: t => if String.eqb k' k then Some v else getAttribute k t
  end.

(** ** Renderable trees built by [h] *)

(** The call [h(type, props, children)] that [nodeToVNode] makes for an
    element, recorded with its three arguments: the lower-cased node name,
    the attributes as props, and the projections of the child nodes, each
    of which is a string (a text node), [null] (another kind of node) or
    again such a call.  What the rendering engine makes of the props it
    is handed (it takes [key] and [ref] out of them and files the
    children under [children]) is not part of the record. *)
Inductive vnode : Type :=
| h_tag (type : string) (props : list (string * string)) (children : list vchild)
with vchild : Type :=
| child_text (data : string)
| child_null
| child_vnode (v : vnode).

(** What [nodeToVNode] returns. *)
Fixpoint nodeToVNode (n : node) : vchild :=
  match n with
  | Text data => child_text data
  | Element nodeName attributes childNodes =>
      child_vnode
        (h_tag (toLowerCase nodeName)
           (filter (λ attr, attr.1 ≠ "slot") attributes)
           (map nodeToVNode childNodes))
  | _ => child_null
  end.

(** ** Values *)

(** What the embedding takes from the language: numbers, which the module
    only compares with [===] and lets the platform convert to attribute
    text, and the text the platform gets from an object it has to convert,
    by running the object's own [toString]; objects are named by their
    reference. *)
Class Platform : Type := {
  number : Type;
  number_eq : number → number → bool;
  number_to_string : number → string;
  object_to_string : nat → string
}.

Section Bridge.

Context `{Platform}.

(** A value that can be written to a property, delivered by the platform or
    kept in [_props].  Objects carry the reference that [===] compares. *)
Inductive value : Type :=
| VUndefined
| VNull
| VBoolean (b : bool)
| VNumber (n : number)
| VString (s : string)
| VFunction (ref : nat)
| VObject (ref : nat)
| VNode (ref : nat) (n : node)
| VVNode (ref : nat) (v : vnode).

Inductive js_type : Type :=
| t_undefined | t_object | t_boolean | t_number | t_string | t_function.

Definition typeof (v : value) : js_type :=
  match v with
  | VUndefined => t_undefined
  | VNull => t_object
  | VBoolean _ => t_boolean
  | VNumber _ => t_number
  | VString _ => t_string
  | VFunction _ => t_function
  | VObject _ | VNode _ _ | VVNode _ _ => t_object
  end.

Definition js_type_eqb (a b : js_type) : bool :=
  match a, b with
  | t_undefined, t_undefined | t_object, t_object | t_boolean, t_boolean
  | t_number, t_number | t_string, t_string | t_function, t_function => true
  | _, _ => false
  end.

(** [v == null] *)
Definition is_nullish (v : value) : bool :=
  match v with
  | VUndefined | VNull => true
  | _ => false
  end.

(** [a === b] *)
Definition strict_eq (a b : value) : bool :=
  match a, b with
  | VUndefined, VUndefined => true
  | VNull, VNull => true
  | VBoolean x, VBoolean y => Bool.eqb x y
  | VNumber x, VNumber y => number_eq x y
  | VString x, VString y => String.eqb x y
  | VFunction r, VFunction r' => Nat.eqb r r'
  | VObject r, VObject r' => Nat.eqb r r'
  | VNode r _, VNode r' _ => Nat.eqb r r'
  | VVNode r _, VVNode r' _ => Nat.eqb r r'
  | _, _ => false
  end.

(** [a ?? b] *)
Definition nullish_coalesce (a b : value) : value :=
  if is_nullish a then b else a.

(** The conversion to a string that [setAttribute] applies to its value. *)
Definition ToString (v : value) : string :=
  match v with
  | VUndefined => "undefined"
  | VNull => "null"
  | VBoolean true => "true"
  | VBoolean false => "false"
  | VNumber n => number_to_string n
  | VString s => s
  | VFunction r | VObject r | VNode r _ | VVNode r _ => object_to_string r
  end.

(** [isPrimitive] *)
Definition isPrimitive (prop : value) : bool :=
  if is_nullish prop then true
  else existsb (js_type_eqb (typeof prop)) [t_string; t_boolean; t_number].

(** [isDomElement]: [!!(obj && [TEXT_NODE, ELEMENT_NODE].includes(obj.nodeType))].
    Only a DOM node has a [nodeType]; for every other value the property
    read gives [undefined] (or the guard [obj &&] has already answered), and
    the result is [false]. *)
Definition isDomElement (obj : value) : bool :=
  match obj with
  | VNode _ n => existsb (Nat.eqb (nodeType n)) [TEXT_NODE; ELEMENT_NODE]
  | _ => false
  end.

(** [nodeToVNode(newVal)] for a value that passed [isDomElement]: the data
    of a text node, or the tree of an element, which is a new object and
    gets the reference [ref]. *)
Definition project (ref : nat) (newVal : value) : value :=
  match newVal with
  | VNode _ n =>
      match nodeToVNode n with
      | child_text data => VString data
      | child_null => VNull
      | child_vnode v => VVNode ref v
      end
  | _ => newVal
  end.

(** ** Slot placeholders *)

(** [h(Slot, { name })]; [name] is a string or [undefined]. *)
Record placeholder : Type := h_Slot { slot_name : option string }.

(** [childNode.slot]: an element reflects its [slot] attribute, the empty
    string when it has none; the other kinds of node have no such property
    and the read gives [undefined]. *)
Definition node_slot (childNode : node) : option string :=
  match childNode with
  | Element _ attributes _ => Some (default "" (getAttribute "slot" attributes))
  | _ => None
  end.

(** The key under which [slots[slotName]] reads and writes. *)
Definition property_key (slotName : option string) : string :=
  default "undefined" slotName.

(** [slotName || undefined] *)
Definition or_undefined (slotName : option string) : option string :=
  match slotName with
  | Some "" | None => None
  | Some s => Some s
  end.

(** [isDomElement(childNode)] *)
Definition is_text_or_element (childNode : node) : bool :=
  existsb (Nat.eqb (nodeType childNode)) [TEXT_NODE; ELEMENT_NODE].

(** One turn of the loop of [getSlots]. *)
Definition getSlots_step (slots : gmap string (list placeholder)) (childNode : node)
    : gmap string (list placeholder) :=
  if negb (is_text_or_element childNode) then slots
  else
    let slotName := node_slot childNode in
    let slot := h_Slot (or_undefined slotName) in
    <[property_key slotName :=
        (default [] (slots !! property_key slotName) ++ [slot])%list]> slots.

(** What [getSlots] returns when its loop runs to the end; [getSlots_throws]
    below says when it does not. *)
Definition getSlots (childNodes : list node) : gmap string (list placeholder) :=
  foldl getSlots_step ∅ childNodes.

(** The placeholders of the children that [getSlots] files under the key
    [k], in document order. *)
Definition in_group (k : string) (childNode : node) : bool :=
  is_text_or_element childNode && bool_decide (property_key (node_slot childNode) = k).

Definition slot_group (k : string) (childNodes : list node) : list placeholder :=
  (λ c, h_Slot (or_undefined (node_slot c))) <$> filter (λ c, in_group k c = true) childNodes.

(** ** The trees handed to the rendering engine *)

(** A prop of the component: a value of [_props], or an entry of [_slots],
    which is an array of placeholders (or [Given VUndefined] for an absent
    default group). *)
Inductive prop : Type :=
| Given (v : value)
| Slotted (placeholders : list placeholder).

(** [h(this._vdomComponent, props)] *)
Record component_vnode : Type :=
  h_Component { vnode_type : nat; vnode_props : gmap string prop }.

(** [h(ContextProvider, { context }, child)] *)
Record provider_vnode : Type :=
  h_ContextProvider { provider_context : value; provider_child : component_vnode }.

(** [cloneElement(vdom, null, child)]: same type and props, new children. *)
Definition cloneElement (vdom : provider_vnode) (child : component_vnode) : provider_vnode :=
  h_ContextProvider (provider_context vdom) child.

(** A call to the rendering engine; the container is the render root. *)
Inductive engine_call : Type :=
| render (tree : option provider_vnode)
| hydrate (tree : option provider_vnode).

(** ** Events and the context bridge *)

Record event : Type := CustomEvent {
  event_type : string;
  composed : bool;
  bubbles : bool;
  cancelable : bool;
  propagation_stopped : bool;
  detail : gmap string value
}.

(** [e.stopPropagation()] *)
Definition stopPropagation (e : event) : event :=
  CustomEvent (event_type e) (composed e) (bubbles e) (cancelable e) true (detail e).

(** [e.detail[k] = v] *)
Definition set_detail (k : string) (v : value) (e : event) : event :=
  CustomEvent (event_type e) (composed e) (bubbles e) (cancelable e)
    (propagation_stopped e) (<[k := v]> (detail e)).

(** A listener is a function object: a reference and what it does. *)
Record listener : Type := Listener {
  listener_ref : nat;
  handleEvent : event → event
}.

(** The listeners registered on each event target, by event type, in the
    order of registration. *)
Local Abbreviation listeners := (gmap (nat * string) (list listener)).

Definition listeners_of (dom : listeners) (target : nat) (type : string) : list listener :=
  default [] (dom !! (target, type)).

Definition same_listener (a b : listener) : bool :=
  Nat.eqb (listener_ref a) (listener_ref b).

(** [target.addEventListener(type, l)]: a listener already there is not
    added again. *)
Definition addEventListener (target : nat) (type : string) (l : listener) (dom : listeners)
    : listeners :=
  if existsb (same_listener l) (listeners_of dom target type) then dom
  else <[(target, type) := (listeners_of dom target type ++ [l])%list]> dom.

(** [target.removeEventListener(type, l)]; [l] may be [undefined]. *)
Definition removeEventListener (target : nat) (type : string) (l : option listener)
    (dom : listeners) : listeners :=
  match l with
  | None => dom
  | Some l =>
      <[(target, type) :=
          filter (λ l', same_listener l l' = false) (listeners_of dom target type)]> dom
  end.

(** A target on the way of an event, from the target of the dispatch
    outwards; [outside_shadow] tells that the target is reached only by
    leaving the shadow tree in which the dispatch started. *)
Record path_entry : Type := PathEntry { target : nat; outside_shadow : bool }.

Fixpoint take_while {A} (p : A → bool) (l : list A) : list A :=
  match l with
  | x :: t => if p x then x :: take_while p t else []
  | [] => []
  end.

(** The targets an event visits after the capture phase (no listener of
    this module captures): all of the path for a composed, bubbling event. *)
Definition event_path (e : event) (path : list path_entry) : list nat :=
  let within :=
    if composed e then path
    else take_while (λ p, negb (outside_shadow p)) path in
  target <$> (if bubbles e then within else take 1 within).

Fixpoint propagate (dom : listeners) (targets : list nat) (e : event) : event :=
  match targets with
  | [] => e
  | t :: outer =>
      let e' := foldl (λ e l, handleEvent l e) e (listeners_of dom t (event_type e)) in
      if propagation_stopped e' then e' else propagate dom outer e'
  end.

(** [target.dispatchEvent(e)], where [path] starts at the target. *)
Definition dispatchEvent (dom : listeners) (path : list path_entry) (e : event) : event :=
  propagate dom (event_path e path) e.

(** *** The [Slot] component *)

(** The fields [Slot] keeps on its component instance; [slot_ref] is the
    reference of the function object the instance creates. *)
Record Slot_this : Type := SlotThis {
  slot_ref : nat;
  el : option nat;
  slot_listener : option listener
}.

(** [(e) => { e.stopPropagation(); e.detail.context = context; }] *)
Definition context_listener (ref : nat) (context : value) : listener :=
  Listener ref (λ e, set_detail "context" context (stopPropagation e)).

(** The callback [ref] that one call [Slot(props, context)] creates. *)
Definition Slot_ref (context : value) (el' : option nat) (this : Slot_this)
    (dom : listeners) : Slot_this * listeners :=
  match el' with
  | None =>
      (this,
       match el this with
       | Some old => removeEventListener old "_preact-ctx" (slot_listener this) dom
       | None => dom
       end)
  | Some e =>
      let l :=
        match slot_listener this with
        | Some l => l
        | None => context_listener (slot_ref this) context
        end in
      (SlotThis (slot_ref this) (Some e) (Some l),
       addEventListener e "_preact-ctx" l dom)
  end.

(** [Slot(props, context)]: the props of the native [slot] element it
    renders, and its [ref]. *)
Definition Slot (props : placeholder) (context : value)
    : option string * (option nat → Slot_this → listeners → Slot_this * listeners) :=
  (slot_name props, Slot_ref context).

(** The placeholder [this] is mounted on the element [e], and the listener
    it has registered there was created with the context [ctx]. *)
Definition mounted_with (ctx : value) (e : nat) (this : Slot_this) (dom : listeners) : Prop :=
  el this = Some e
  ∧ slot_listener this = Some (context_listener (slot_ref this) ctx)
  ∧ listeners_of dom e "_preact-ctx" = [context_listener (slot_ref this) ctx].

(** A later render of a mounted placeholder, with the context [ctx']: the
    engine calls the [ref] of the render before with [null], and the [ref]
    of this render with the element. *)
Definition Slot_rerender (ctx_before ctx' : value) (e : nat) (this : Slot_this)
    (dom : listeners) : Slot_this * listeners :=
  let '(this, dom) := (Slot (h_Slot None) ctx_before).2 None this dom in
  (Slot (h_Slot None) ctx').2 (Some e) this dom.

(** ** Registration *)

Record options : Type := Options { shadow : bool; styles : string }.

(** What [register] reads from the component; a string that is not
    declared is the empty string, which [||] skips all the same. *)
Record Component : Type := {
  Component_ref : nat;
  Component_observedAttributes : option (list string);
  Component_propTypes : option (list string);
  Component_tagName : string;
  Component_displayName : string;
  Component_name : string
}.

(** The class [PreactElement] that [register] defines. *)
Record registration : Type := Registration {
  reg_component : nat;
  reg_tagName : string;
  propNames : list string;
  observedAttributes : list string;
  reg_options : option options
}.

(** [a || b] on strings *)
Definition or_string (a b : string) : string :=
  match a with
  | "" => b
  | _ => a
  end.

(** [propNames || Component.observedAttributes ||
    Object.keys(Component.propTypes || {})]; an array is never falsy. *)
Definition supplied_names (C : Component) (names : option (list string)) : list string :=
  match names with
  | Some p => p
  | None =>
      match Component_observedAttributes C with
      | Some p => p
      | None => default [] (Component_propTypes C)
      end
  end.

Definition register (C : Component) (tagName : string) (names : option (list string))
    (opts : option options) : registration :=
  let names := supplied_names C names in
  let names := array_from_set (map toCamelCase names ++ map toKebabCase names)%list in
  {| reg_component := Component_ref C;
     reg_tagName :=
       or_string tagName
         (or_string (Component_tagName C)
            (or_string (Component_displayName C) (Component_name C)));
     propNames := names;
     observedAttributes := array_from_set (map toKebabCase names);
     reg_options := opts |}.

(** ** Element instances *)

(** The render root: the element itself, or its open shadow root, with the
    text of the style element put there at construction, if any. *)
Inductive render_root : Type :=
| root_self
| root_shadow (style : option string).

Record element : Type := mk_element {
  _vdomComponent : nat;
  _root : render_root;
  (* the target of the proxy [l], where the Preact renderer keeps the
     listeners it sets on the element *)
  l : gmap string value;
  _props : gmap string value;
  _slots : gmap string prop;
  _vdom : option provider_vnode;
  (* the platform's side of the element *)
  attributes : gmap string string;
  childNodes : list node;
  (* the calls made to the rendering engine on [_root], oldest first *)
  rendered : list engine_call;
  (* the reference that the next tree built by [nodeToVNode] gets *)
  next_ref : nat
}.

Definition with_props (p : gmap string value) (this : element) : element :=
  mk_element (_vdomComponent this) (_root this) (l this) p (_slots this) (_vdom this)
    (attributes this) (childNodes this) (rendered this) (next_ref this).

Definition with_attributes (a : gmap string string) (this : element) : element :=
  mk_element (_vdomComponent this) (_root this) (l this) (_props this) (_slots this) (_vdom this)
    a (childNodes this) (rendered this) (next_ref this).

Definition with_childNodes (c : list node) (this : element) : element :=
  mk_element (_vdomComponent this) (_root this) (l this) (_props this) (_slots this) (_vdom this)
    (attributes this) c (rendered this) (next_ref this).

Definition with_next_ref (r : nat) (this : element) : element :=
  mk_element (_vdomComponent this) (_root this) (l this) (_props this) (_slots this) (_vdom this)
    (attributes this) (childNodes this) (rendered this) r.

(** [this._vdom = vdom; engine(this._vdom, this._root)] *)
Definition with_rendered (vdom : option provider_vnode)
    (engine : option provider_vnode → engine_call) (this : element) : element :=
  mk_element (_vdomComponent this) (_root this) (l this) (_props this) (_slots this) vdom
    (attributes this) (childNodes this) (rendered this ++ [engine vdom])%list
    (next_ref this).

Definition with_l (t : gmap string value) (this : element) : element :=
  mk_element (_vdomComponent this) (_root this) t (_props this) (_slots this) (_vdom this)
    (attributes this) (childNodes this) (rendered this) (next_ref this).

(** The constructor [PreactElement]; the trap of its proxy is [l_set]
    below. *)
Definition PreactElement (reg : registration) : element :=
  let shadowed := match reg_options reg with Some o => shadow o | None => false end in
  let style :=
    match reg_options reg with
    | Some o => match styles o with "" => None | s => Some s end
    | None => None
    end in
  {| _vdomComponent := reg_component reg;
     _root := if shadowed then root_shadow style else root_self;
     l := ∅;
     _props := ∅;
     _slots := ∅;
     _vdom := None;
     attributes := ∅;
     childNodes := [];
     rendered := [];
     next_ref := 0 |}.

(** [{ ...this._props, ...this._slots }] *)
Definition merged_props (this : element) : gmap string prop :=
  _slots this ∪ (Given <$> _props this).

(** ** The lifecycle callbacks *)

(** The event that [connectedCallback] creates. *)
Definition context_event : event :=
  {| event_type := "_preact-ctx";
     composed := true;
     bubbles := true;
     cancelable := true;
     propagation_stopped := false;
     detail := ∅ |}.

(** [event.detail.context] after the dispatch from the render root, whose
    way outwards is [path]. *)
Definition discovered_context (dom : listeners) (path : list path_entry) : value :=
  default VUndefined (detail (dispatchEvent dom path context_event) !! "context").

(** [this._slots] as [connectedCallback] sets it:
    [const { '': children, ...namedSlots } = getSlots(this)] and then
    [{ children, ...namedSlots }]. *)
Definition connected_slots (this : element) : gmap string prop :=
  let slots := getSlots (childNodes this) in
  let children :=
    match slots !! "" with
    | Some l => Slotted l
    | None => Given VUndefined
    end in
  let namedSlots := delete "" slots in
  (Slotted <$> namedSlots) ∪ {["children" := children]}.

Definition hasAttribute (name : string) (this : element) : bool :=
  bool_decide (is_Some (attributes this !! name)).

Definition connectedCallback (dom : listeners) (path : list path_entry) (this : element)
    : element :=
  let this :=
    mk_element (_vdomComponent this) (_root this) (l this) (_props this) (connected_slots this)
      (_vdom this) (attributes this) (childNodes this) (rendered this) (next_ref this) in
  let context := discovered_context dom path in
  let vdom :=
    h_ContextProvider context (h_Component (_vdomComponent this) (merged_props this)) in
  with_rendered (Some vdom) (if hasAttribute "hydrate" this then hydrate else render) this.

Definition disconnectedCallback (this : element) : element :=
  mk_element (_vdomComponent this) (_root this) (l this) ∅ ∅ None
    (attributes this) (childNodes this) (rendered this ++ [render None])%list
    (next_ref this).

(** The first statement of [attributeChangedCallback]: [null] becomes
    [undefined], a text or element node is projected, [ref] being the
    reference of the tree that the projection of an element builds. *)
Definition normalised (ref : nat) (newVal : value) : value :=
  if is_nullish newVal then VUndefined
  else if isDomElement newVal then project ref newVal
  else newVal.

(** Whether that statement builds a tree. *)
Definition builds_tree (newVal : value) : bool :=
  match newVal with
  | VNode _ (Element _ _ _) => true
  | _ => false
  end.

Definition attributeChangedCallback (name : string) (oldVal newVal : value)
    (this : element) : element :=
  let ref := next_ref this in
  let this := if builds_tree newVal then with_next_ref (S ref) this else this in
  let newVal := normalised ref newVal in
  if strict_eq newVal oldVal then this
  else
    let this :=
      with_props (<[name := newVal]> (<[toCamelCase name := newVal]> (_props this))) this in
    match _vdom this with
    | None => this
    | Some vdom =>
        with_rendered
          (Some (cloneElement vdom (h_Component (_vdomComponent this) (merged_props this))))
          render this
    end.

(** ** The platform's attribute operations on an instance *)

(** The old or new value the platform reports for an attribute. *)
Definition attribute_value (a : option string) : value :=
  match a with
  | Some s => VString s
  | None => VNull
  end.

(** [this.setAttribute(qualifiedName, value)], the value already converted
    to a string: the name is lower-cased, the attribute is set, and the
    callback runs when the attribute is observed, also when the value is
    the one the attribute had. *)
Definition setAttribute (reg : registration) (qualifiedName value : string)
    (this : element) : element :=
  let name := toLowerCase qualifiedName in
  let old := attributes this !! name in
  let this := with_attributes (<[name := value]> (attributes this)) this in
  if bool_decide (name ∈ observedAttributes reg)
  then attributeChangedCallback name (attribute_value old) (VString value) this
  else this.

(** [this.removeAttribute(qualifiedName)] *)
Definition removeAttribute (reg : registration) (qualifiedName : string)
    (this : element) : element :=
  let name := toLowerCase qualifiedName in
  match attributes this !! name with
  | None => this
  | Some old =>
      let this := with_attributes (delete name (attributes this)) this in
      if bool_decide (name ∈ observedAttributes reg)
      then attributeChangedCallback name (VString old) VNull this
      else this
  end.

(** ** The accessor property defined for a recognized name *)

(** [this._props[name]], read from the entries of [_props] itself: the
    read of the code for every name but the inherited ones
    ([Object_prototype_names] below), under which an object without an
    entry reads what it inherits. *)
Definition accessor_get (name : string) (this : element) : value :=
  default VUndefined (_props this !! name).

Definition accessor_set (reg : registration) (name : string) (v : value)
    (this : element) : element :=
  let oldVal := nullish_coalesce (accessor_get name this) VNull in
  if isPrimitive v then
    if strict_eq oldVal v then this
    else setAttribute reg (toKebabCase name) (ToString v) this
  else attributeChangedCallback (toKebabCase name) oldVal v this.

(** ** The proxy [l] set up by the constructor

    The Preact renderer keeps the listener of an event under
    [l[type + useCapture]]; the trap hands the listener of a recognized
    [on...] name to [attributeChangedCallback]. *)

(** [`on${capitalize(prop)}`.replace(/(true)|(false)/, '')] *)
Definition listener_prop_name (prop : string) : string :=
  replace_first (rx_matcher true_false_regex) (λ _ _, "") 0 ("on" +:+ capitalize prop).

Definition l_set (reg : registration) (prop : string) (val : value) (this : element)
    : element :=
  let name := listener_prop_name prop in
  let this := with_l (<[prop := val]> (l this)) this in
  if bool_decide (name ∈ propNames reg)
  then attributeChangedCallback (toKebabCase name) (accessor_get name this) val this
  else this.

(** The stored value of a name is what its attribute holds: the text of the
    attribute, or [undefined] when the element has no such attribute.  This
    is the state in which writes of primitive values and attribute changes
    leave a name. *)
Definition mirrors_attribute (name : string) (this : element) : Prop :=
  accessor_get name this
  = match attributes this !! toKebabCase name with
    | Some a => VString a
    | None => VUndefined
    end.


(** ** What the component is given *)

(** The props of the component in the stored tree. *)
Definition rendered_props (this : element) : option (gmap string prop) :=
  (λ vdom, vnode_props (provider_child vdom)) <$> _vdom this.

(** The context that the stored tree provides. *)
Definition provided_context (this : element) : option value :=
  provider_context <$> _vdom this.

(** The number of placeholders in the groups of [slots]. *)
Definition placeholder_count (slots : gmap string (list placeholder)) : nat :=
  map_fold (λ _ group n, (List.length group + n)%nat) 0%nat slots.

(** ** Sequences of operations on an instance

    What can happen to an instance once it is constructed: the platform
    connects and disconnects it, its attributes are set and removed, its
    children change, a value is written to one of its properties, and
    the Preact renderer sets a listener through the proxy.  A write to a
    property that is not a recognized name is not one to an accessor of
    this module, and leaves the instance as it is. *)
Inductive operation : Type :=
| op_connect (dom : listeners) (path : list path_entry)
| op_disconnect
| op_setAttribute (qualifiedName text : string)
| op_removeAttribute (qualifiedName : string)
| op_children (nodes : list node)
| op_write (name : string) (v : value)
| op_listener (prop : string) (val : value).

Definition run (reg : registration) (o : operation) (this : element) : element :=
  match o with
  | op_connect dom path => connectedCallback dom path this
  | op_disconnect => disconnectedCallback this
  | op_setAttribute qualifiedName text => setAttribute reg qualifiedName text this
  | op_removeAttribute qualifiedName => removeAttribute reg qualifiedName this
  | op_children nodes => with_childNodes nodes this
  | op_write name v =>
      if bool_decide (name ∈ propNames reg) then accessor_set reg name v this else this
  | op_listener prop val => l_set reg prop val this
  end.

Definition run_all (reg : registration) (ops : list operation) (this : element) : element :=
  foldl (λ this o, run reg o this) this ops.

(** The instances of a registration that a sequence of operations leads
    to. *)
Definition reachable (reg : registration) (this : element) : Prop :=
  ∃ ops, this = run_all reg ops (PreactElement reg).

(** An operation other than a connection or a disconnection. *)
Definition is_update (o : operation) : bool :=
  match o with
  | op_connect _ _ | op_disconnect => false
  | _ => true
  end.

(** The stored tree is the one last handed to the rendering engine, and
    its component has the props and slots of the instance. *)
Definition tree_in_sync (this : element) : Prop :=
  match _vdom this with
  | Some vdom =>
      provider_child vdom = h_Component (_vdomComponent this) (merged_props this)
      ∧ (last (rendered this) = Some (render (Some vdom))
         ∨ last (rendered this) = Some (hydrate (Some vdom)))
  | None => rendered this = [] ∨ last (rendered this) = Some (render None)
  end.

(** ** The reduced variant of the module

    The module without context for complex values: [register] takes the
    names as they are supplied, and [attributeChangedCallback] does not
    project DOM nodes.  Its [getSlots], [Slot], [connectedCallback] and
    [disconnectedCallback] are those above. *)





(** ** Plain objects and what they inherit

    [_props] and the object that [getSlots] fills are made by [{}], so
    they inherit the properties of [Object.prototype].  Under one of
    these names an object without an entry of its own reads the inherited
    function or object, where a map reads [undefined].  The maps above
    are the entries of the objects themselves; the properties that turn
    on a read of an absent entry are stated for the other names. *)
Definition Object_prototype_names : list string :=
  ["constructor"; "__defineGetter__"; "__defineSetter__"; "hasOwnProperty";
   "__lookupGetter__"; "__lookupSetter__"; "isPrototypeOf"; "propertyIsEnumerable";
   "toString"; "valueOf"; "__proto__"; "toLocaleString"].

Definition inherited (name : string) : bool :=
  bool_decide (name ∈ Object_prototype_names).

(** When [getSlots] throws.  For a text or element child whose key is an
    inherited name, [slots[slotName]] reads the inherited value, which is
    truthy, so that no array is made, and [slots[slotName].push] is not a
    function: the loop ends there with a [TypeError].  [getSlots] above is
    what the loop returns when it runs to its end. *)
Definition getSlots_throws (childNodes : list node) : bool :=
  existsb (λ c, is_text_or_element c && inherited (property_key (node_slot c))) childNodes.


(** ** The text of a node and of a tree *)

(** The text under a node in document order, as [textContent] gives it
    for an element: comments and processing instructions have no part in
    it. *)
Fixpoint text_under (n : node) : string :=
  match n with
  | Text data => data
  | Element _ _ childNodes => foldr (λ c s, text_under c +:+ s) "" childNodes
  | _ => ""
  end.

(** The strings of a tree, in order. *)
Fixpoint vnode_text (v : vnode) : string :=
  match v with
  | h_tag _ _ children =>
      foldr (λ c s,
               match c with
               | child_text data => data
               | child_null => ""
               | child_vnode v' => vnode_text v'
               end +:+ s) "" children
  end.

Definition vchild_text (c : vchild) : string :=
  match c with
  | child_text data => data
  | child_null => ""
  | child_vnode v => vnode_text v
  end.

(** No call of [h] in the tree, at any depth, is handed a prop named [k]. *)
Fixpoint vnode_lacks (k : string) (v : vnode) : bool :=
  match v with
  | h_tag _ props children =>
      bool_decide (getAttribute k props = None)
      && forallb (λ c,
                    match c with
                    | child_vnode v' => vnode_lacks k v'
                    | _ => true
                    end) children
  end.

Definition vchild_lacks (k : string) (c : vchild) : bool :=
  match c with
  | child_vnode v => vnode_lacks k v
  | _ => true
  end.

End Bridge.

Abbreviation listeners := (gmap (nat * string) (list listener)).

(** ** Scenarios

    The instances and registrations on which the properties below are
    tried.  They use integers for the numbers of the language. *)

Definition js_platform : Platform :=
  {| number := Z;
     number_eq := Z.eqb;
     number_to_string := pretty;
     object_to_string := λ _, "[object Object]" |}.

Section Scenarios.

#[local] Existing Instance js_platform.

(** [registerElement(Clock, 'x-clock', ['time', 'custom-date'])] *)
Definition Clock : Component :=
  {| Component_ref := 1;
     Component_observedAttributes := None;
     Component_propTypes := None;
     Component_tagName := "";
     Component_displayName := "";
     Component_name := "Clock" |}.

Definition x_clock : registration :=
  register Clock "x-clock" (Some ["time"; "custom-date"]) None.

(** [document.createElement('x-clock')] *)
Definition clock_created : element := PreactElement x_clock.

(** The way of an event out of an element that sits directly in the
    document, where nothing listens. *)
Definition detached_path : list path_entry := [PathEntry 0 false].

(** The same element after [root.appendChild(el)]. *)
Definition clock_connected : element := connectedCallback ∅ detached_path clock_created.

(** [el.setAttribute('time', 'x')], the element appended and removed again,
    and the attribute set once more to the value it still has. *)
Definition clock_with_time : element := setAttribute x_clock "time" "x" clock_created.




(** An element whose only child is a text node, as in
    [<x-foo>hello</x-foo>], and one with a child in a slot named
    [children] next to a child without a slot. *)
Definition text_child : list node := [Text "hello"].

Definition children_named_child : list node :=
  [Element "DIV" [] []; Element "SPAN" [("slot", "children")] []].

(** A placeholder, instance 7, mounted on the native slot element 5 while
    the context was ["dark"], then rendered again with the context
    ["sunny"]: the engine calls the earlier [ref] with [null] and the new
    [ref] with the element. *)
Definition slot_created : Slot_this := SlotThis 7 None None.

Definition slot_mounted : Slot_this * listeners :=
  (Slot (h_Slot None) (VString "dark")).2 (Some 5) slot_created ∅.



End Scenarios.

Section MoreScenarios.

#[local] Existing Instance js_platform.

(** The clock with its attribute set and then appended to the document,
    as a sequence of operations. *)
Definition clock_live_history : list operation :=
  [op_setAttribute "time" "x"; op_connect ∅ detached_path].

Definition clock_live : element := run_all x_clock clock_live_history clock_created.

(** The same history, followed by a removal from the document and by the
    attribute set once more. *)
Definition clock_again_history : list operation :=
  [op_setAttribute "time" "x"; op_connect ∅ detached_path; op_disconnect;
   op_setAttribute "time" "x"].

(** A clock with a child without a slot and a child in the slot named
    [children]. *)
Definition clock_with_children : element := with_childNodes children_named_child clock_created.

End MoreScenarios.

(** * Properties *)

(** ** The name-casing helpers *)

Example toKebabCase_onClick : toKebabCase "onClick" = "on-click".
Proof. reflexivity. Qed.

Example toKebabCase_kebab_name : toKebabCase "kebab-name" = "kebab-name".
Proof. reflexivity. Qed.

Example toCamelCase_on_click : toCamelCase "on-click" = "onClick".
Proof. reflexivity. Qed.

Example toCamelCase_digit : toCamelCase "item-2" = "item2".
Proof. reflexivity. Qed.

Example listener_prop_name_click : listener_prop_name "clickfalse" = "onClick".
Proof. reflexivity. Qed.

Lemma to_lower_not_upper c : not_upper (Char.to_lower c) = true.
Proof. by destruct c as [[] [] [] [] [] [] [] []]. Qed.

Lemma to_lower_id c : not_upper c = true → Char.to_lower c = c.
Proof.
  unfold not_upper, Char.to_lower. by destruct (Char.is_upper c).
Qed.

Lemma str_app_assoc (a b c : string) : (a +:+ b) +:+ c = a +:+ (b +:+ c).
Proof.
  induction a as [|x a IH]; [done|].
  change (String x ((a +:+ b) +:+ c) = String x (a +:+ (b +:+ c))). by rewrite IH.
Qed.

Lemma str_forall_app p a b :
  str_forall p (a +:+ b) = str_forall p a && str_forall p b.
Proof.
  induction a as [|c a IH]; simpl; [done|].
  rewrite IH. by destruct (p c).
Qed.

Lemma toLowerCase_not_upper s : str_forall not_upper (toLowerCase s) = true.
Proof.
  unfold toLowerCase. induction s as [|c s IH]; simpl; [done|].
  by rewrite to_lower_not_upper, IH.
Qed.

Lemma toLowerCase_id s : str_forall not_upper s = true → toLowerCase s = s.
Proof.
  unfold toLowerCase. induction s as [|c s IH]; simpl; [done|].
  intros [Hc Hs]%andb_true_iff. by rewrite (to_lower_id c Hc), (IH Hs).
Qed.

(** *** The matcher on the expression of [toKebabCase] *)

Lemma rx_run_class n p pos s k :
  rx_run (S n) (rx_class p) pos s k
  = match s with
    | String c t => if p c then k (S pos) t else None
    | EmptyString => None
    end.
Proof. done. Qed.

Lemma rx_run_seq n r1 r2 pos s k :
  rx_run (S n) (rx_seq r1 r2) pos s k
  = rx_run (S n) r1 pos s (λ pos' s', rx_run (S n) r2 pos' s' k).
Proof. done. Qed.

Lemma rx_run_alt n r1 r2 pos s k :
  rx_run (S n) (rx_alt r1 r2) pos s k
  = match rx_run (S n) r1 pos s k with
    | Some m => Some m
    | None => rx_run (S n) r2 pos s k
    end.
Proof. done. Qed.

Lemma rx_run_plus n r pos s k :
  rx_run (S n) (rx_plus r) pos s k
  = rx_run (S n) r pos s
      (λ pos' s',
         match rx_run n (rx_plus r) pos' s' k with
         | Some m => Some m
         | None => k pos' s'
         end).
Proof. done. Qed.

Lemma rx_run_not_ahead n r pos s k :
  rx_run (S n) (rx_not_ahead r) pos s k
  = match rx_run (S n) r pos s (λ pos' _, Some pos') with
    | Some _ => None
    | None => k pos s
    end.
Proof. done. Qed.

Lemma upper_not_lower c : Char.is_upper c = true → Char.is_lower c = false.
Proof. by destruct c as [[] [] [] [] [] [] [] []]. Qed.

Lemma upper_run_starts_lower s : upper_run s ≠ 0%nat → starts_lower s = false.
Proof.
  destruct s as [|c t]; simpl; [done|].
  destruct (Char.is_upper c) eqn:Hc; [|done]. intros _. by apply upper_not_lower.
Qed.

(** The greedy [[A-Z]+] followed by the look-ahead [(?![a-z])]. *)
Lemma rx_plus_upper_lookahead s : ∀ n pos k,
  (∀ p s', k p s' = if starts_lower s' then None else Some p) →
  (String.length s ≤ n)%nat →
  rx_run (S n) (rx_plus (rx_class Char.is_upper)) pos s k
  = match upper_run s with
    | O => None
    | S m =>
        if starts_lower (str_drop (S m) s)
        then match m with O => None | S _ => Some (pos + m)%nat end
        else Some (pos + S m)%nat
    end.
Proof.
  induction s as [|c t IH]; intros n pos k Hk Hn; [done|].
  rewrite rx_run_plus, rx_run_class. cbn [upper_run].
  destruct (Char.is_upper c); [|done].
  destruct n as [|n]; [simpl in Hn; lia|].
  rewrite IH by (done || simpl in Hn; lia).
  clear IH. destruct (upper_run t) as [|m] eqn:Hrun.
  - rewrite Hk. change (str_drop 1 (String c t)) with t.
    destruct (starts_lower t); [done|]. f_equal. lia.
  - change (str_drop (S (S m)) (String c t)) with (str_drop (S m) t).
    destruct (starts_lower (str_drop (S m) t)).
    + destruct m as [|m]; [|f_equal; lia].
      rewrite Hk, upper_run_starts_lower by by rewrite Hrun.
      f_equal. lia.
    + f_equal. lia.
Qed.

(** The expression of [toKebabCase] matches what [kebab_matcher] says. *)
Lemma rx_matcher_kebab s : rx_matcher kebab_regex s = kebab_matcher s.
Proof.
  unfold rx_matcher, kebab_regex, kebab_matcher.
  rewrite rx_run_alt, rx_run_seq, rx_run_class.
  rewrite rx_plus_upper_lookahead; [|intros p s'|done].
  - destruct s as [|c t]; [done|]. cbn [upper_run].
    destruct (Char.is_upper c); [|done].
    destruct (starts_lower _); [|done].
    by destruct (upper_run t).
  - rewrite rx_run_not_ahead, rx_run_class.
    destruct s' as [|c' t']; [done|]. simpl. by destruct (Char.is_lower c').
Qed.

Lemma kebab_matcher_pos s k : kebab_matcher s = Some k → (1 ≤ k)%nat.
Proof.
  unfold kebab_matcher. destruct (upper_run s) as [|n]; [done|].
  destruct (starts_lower _); intros [= <-]; destruct n; lia.
Qed.

Lemma kebab_matcher_None c t : kebab_matcher (String c t) = None → not_upper c = true.
Proof.
  unfold kebab_matcher, not_upper. simpl.
  destruct (Char.is_upper c); [|done].
  by destruct (starts_lower _).
Qed.

Lemma kebab_matcher_not_upper c t : not_upper c = true → kebab_matcher (String c t) = None.
Proof.
  unfold kebab_matcher, not_upper. simpl. by destruct (Char.is_upper c).
Qed.

(** Stepping over the rest of a match is dropping it. *)
Lemma replace_from_skip matcher replacer k : ∀ offset s,
  replace_from matcher replacer offset k s
  = replace_from matcher replacer (offset + k) 0 (str_drop k s).
Proof.
  induction k as [|k IH]; intros offset s.
  - by rewrite Nat.add_0_r.
  - destruct s as [|c t]; [done|]. simpl.
    rewrite IH. f_equal. lia.
Qed.

(** The two equations of the scan: a character at which the expression
    does not match is copied, and a match is replaced by its lower-case
    form, after a hyphen unless the match starts the string. *)
Lemma kebab_from_copy offset c t :
  kebab_matcher (String c t) = None →
  kebab_from offset (String c t) = String c (kebab_from (S offset) t).
Proof.
  unfold kebab_from. cbn [replace_from]. rewrite rx_matcher_kebab. by intros ->.
Qed.

Lemma kebab_from_match offset s k :
  kebab_matcher s = Some k →
  kebab_from offset s
  = (match offset with O => "" | S _ => "-" end)
      +:+ toLowerCase (str_take k s) +:+ kebab_from (offset + k) (str_drop k s).
Proof.
  intros Hm. pose proof (kebab_matcher_pos _ _ Hm) as Hk.
  destruct k as [|k]; [lia|].
  destruct s as [|c t]; [done|].
  unfold kebab_from at 1. cbn [replace_from]. rewrite rx_matcher_kebab, Hm.
  rewrite replace_from_skip. unfold kebab_replacer, kebab_from.
  rewrite str_app_assoc. do 3 f_equal. lia.
Qed.

Lemma kebab_from_no_upper offset s :
  str_forall not_upper s = true → kebab_from offset s = s.
Proof.
  revert offset. induction s as [|c s IH]; intros offset; [done|].
  simpl. intros [Hc Hs]%andb_true_iff.
  rewrite kebab_from_copy by by apply kebab_matcher_not_upper.
  by rewrite IH.
Qed.

Lemma replace_from_kebab_not_upper s : ∀ offset skip,
  str_forall not_upper
    (replace_from (rx_matcher kebab_regex) kebab_replacer offset skip s) = true.
Proof.
  induction s as [|c s IH]; intros offset skip; [done|].
  cbn [replace_from]. destruct skip as [|skip]; [|apply IH].
  rewrite rx_matcher_kebab.
  destruct (kebab_matcher (String c s)) as [[|k]|] eqn:Hm.
  - apply kebab_matcher_pos in Hm. lia.
  - unfold kebab_replacer. rewrite !str_forall_app, toLowerCase_not_upper, IH.
    by destruct offset.
  - simpl. by rewrite (kebab_matcher_None _ _ Hm), IH.
Qed.

Lemma toKebabCase_not_upper s : str_forall not_upper (toKebabCase s) = true.
Proof. apply replace_from_kebab_not_upper. Qed.

Lemma toKebabCase_idempotent s : toKebabCase (toKebabCase s) = toKebabCase s.
Proof. apply kebab_from_no_upper, toKebabCase_not_upper. Qed.

(** The name [setAttribute] lower-cases is already in lower case. *)
Lemma toLowerCase_toKebabCase s : toLowerCase (toKebabCase s) = toKebabCase s.
Proof. apply toLowerCase_id, toKebabCase_not_upper. Qed.

(** C9, as the code has it: [toKebabCase] lower-cases every capital and puts
    a hyphen before each match of its expression that does not start the
    string, a match being a run of capitals, without its last capital when
    a lower-case letter follows the run; so [toKebabCase "onClick"] is
    ["on-click"] and [toKebabCase "URLValue"] is ["url-value"], the result
    has no capital left, and a string without capitals is returned
    unchanged. *)
Theorem toKebabCase_spec :
  toKebabCase "onClick" = "on-click"
  ∧ toKebabCase "URLValue" = "url-value"
  ∧ (∀ s, str_forall not_upper s = true → toKebabCase s = s)
  ∧ (∀ s, str_forall not_upper (toKebabCase s) = true)
  ∧ (∀ s, toKebabCase s = kebab_from 0 s
          ∧ rx_matcher kebab_regex s = kebab_matcher s)
  ∧ (∀ offset c t, kebab_matcher (String c t) = None →
       kebab_from offset (String c t) = String c (kebab_from (S offset) t))
  ∧ (∀ offset s k, kebab_matcher s = Some k →
       kebab_from offset s
       = (match offset with O => "" | S _ => "-" end)
           +:+ toLowerCase (str_take k s) +:+ kebab_from (offset + k) (str_drop k s)).
Proof.
  split_and!; try done.
  - intros s Hs. by apply kebab_from_no_upper.
  - apply toKebabCase_not_upper.
  - intros s. split; [done|apply rx_matcher_kebab].
  - apply kebab_from_copy.
  - apply kebab_from_match.
Qed.

Lemma toKebabCase_spec_witness :
  str_forall not_upper "kebab-name" = true ∧ toKebabCase "kebab-name" = "kebab-name".
Proof.
  split; [reflexivity|].
  apply (proj1 (proj2 (proj2 toKebabCase_spec))). reflexivity.
Defined.

(** C9, as it is worded, fails on the acronym: the capitals of ["URLValue"]
    are not hyphenated one by one. *)
Lemma toKebabCase_URLValue_counterexample : toKebabCase "URLValue" ≠ "-u-r-l-value".
Proof. done. Qed.

(** ** Registration *)

Lemma elem_of_array_from_set x xs : x ∈ array_from_set xs ↔ x ∈ xs.
Proof.
  induction xs as [|y xs IH]; simpl; [done|].
  rewrite !elem_of_cons, list_elem_of_filter, IH.
  destruct (decide (x = y)); naive_solver.
Qed.


Lemma elem_of_propNames C tagName names opts x :
  x ∈ propNames (register C tagName names opts)
  ↔ ∃ p, p ∈ supplied_names C names ∧ (x = toCamelCase p ∨ x = toKebabCase p).
Proof.
  simpl. rewrite elem_of_array_from_set, elem_of_app, !list_elem_of_fmap.
  naive_solver.
Qed.

Lemma elem_of_observedAttributes C tagName names opts a :
  a ∈ observedAttributes (register C tagName names opts)
  ↔ ∃ n, n ∈ propNames (register C tagName names opts) ∧ a = toKebabCase n.
Proof.
  simpl. rewrite elem_of_array_from_set, list_elem_of_fmap. naive_solver.
Qed.

(** The attribute of a recognized name is observed. *)
Lemma recognized_observed C tagName names opts n :
  n ∈ propNames (register C tagName names opts) →
  toKebabCase n ∈ observedAttributes (register C tagName names opts).
Proof. intros Hn. apply elem_of_observedAttributes. eauto. Qed.

Section Properties.

Context `{Platform}.

Lemma element_eta (this : element) :
  mk_element (_vdomComponent this) (_root this) (l this) (_props this) (_slots this) (_vdom this)
    (attributes this) (childNodes this) (rendered this) (next_ref this) = this.
Proof. by destruct this. Qed.

(** What [attributeChangedCallback] does to [_props]: nothing when the new
    value is the old one, and otherwise it stores the new value under the
    name and under its camel-case form. *)
Lemma attributeChangedCallback_props name oldVal newVal this :
  _props (attributeChangedCallback name oldVal newVal this)
  = if strict_eq (normalised (next_ref this) newVal) oldVal then _props this
    else <[name := normalised (next_ref this) newVal]>
           (<[toCamelCase name := normalised (next_ref this) newVal]> (_props this)).
Proof.
  unfold attributeChangedCallback.
  destruct (strict_eq _ _); [by destruct (builds_tree _)|].
  destruct (builds_tree newVal); simpl; by destruct (_vdom this).
Qed.

Lemma attributeChangedCallback_attributes name oldVal newVal this :
  attributes (attributeChangedCallback name oldVal newVal this) = attributes this.
Proof.
  unfold attributeChangedCallback.
  destruct (strict_eq _ _); [by destruct (builds_tree _)|].
  destruct (builds_tree newVal); simpl; by destruct (_vdom this).
Qed.


(** ** The value predicates *)


Lemma strict_eq_object_sym (a b : value) :
  isPrimitive b = false → strict_eq a b = strict_eq b a.
Proof.
  destruct b; try done; destruct a; simpl; try done; intros _; apply Nat.eqb_sym.
Qed.

Lemma normalised_id ref (v : value) :
  is_nullish v = false → isDomElement v = false → normalised ref v = v.
Proof. unfold normalised. by intros -> ->. Qed.

Lemma builds_tree_isDomElement (v : value) : builds_tree v = true → isDomElement v = true.
Proof. by destruct v as [| | | | | | |r []|]. Qed.

(** A projected value is never [null], nor a text or element node: such
    values do not get into [_props]. *)
Lemma normalised_not_node ref (v : value) :
  normalised ref v ≠ VNull ∧ isDomElement (normalised ref v) = false.
Proof.
  unfold normalised. destruct v as [| | | | | | |r n|]; try done.
  destruct n; try done; simpl.
  all: by split.
Qed.

(** ** Disconnection *)

(** C8: disconnecting an instance empties its props state and its slots
    state, renders [null] into the render root, as the last call made to
    the rendering engine, and leaves no stored tree; afterwards every
    property reads [undefined].  The attributes and the child nodes of the
    element are not touched. *)
Theorem disconnectedCallback_clears (this : element) :
  let this' := disconnectedCallback this in
  _props this' = ∅
  ∧ _slots this' = ∅
  ∧ _vdom this' = None
  ∧ rendered this' = (rendered this ++ [render None])%list
  ∧ last (rendered this') = Some (render None)
  ∧ (∀ name, accessor_get name this' = VUndefined)
  ∧ _root this' = _root this
  ∧ attributes this' = attributes this
  ∧ childNodes this' = childNodes this.
Proof.
  intros this'. subst this'. unfold disconnectedCallback. cbn.
  split_and!; try done.
  apply last_snoc.
Qed.

(** ** Attribute changes *)

Lemma attributeChangedCallback_noop name oldVal newVal (this : element) :
  strict_eq (normalised (next_ref this) newVal) oldVal = true →
  builds_tree newVal = false →
  attributeChangedCallback name oldVal newVal this = this.
Proof. unfold attributeChangedCallback. by intros -> ->. Qed.



(** ** The accessor property *)


Lemma setAttribute_same reg name value (this : element) :
  attributes this !! toLowerCase name = Some value →
  setAttribute reg name value this = this.
Proof.
  intros Hold. unfold setAttribute. rewrite Hold.
  rewrite insert_id by done.
  unfold with_attributes at 1 2. rewrite element_eta.
  case_bool_decide; [|done].
  apply attributeChangedCallback_noop; [|done].
  simpl. apply String.eqb_refl.
Qed.

Lemma accessor_set_same reg name v (this : element) :
  strict_eq (accessor_get name this) v = true →
  v ≠ VUndefined →
  isDomElement v = false →
  accessor_set reg name v this = this.
Proof.
  intros Heq Hundef Hdom. unfold accessor_set.
  destruct (isPrimitive v) eqn:Hprim.
  - destruct v; try done; destruct (accessor_get name this); try done;
      simpl in *; by rewrite Heq.
  - assert (is_nullish (accessor_get name this) = false) as Hnn.
    { destruct v; try done; by destruct (accessor_get name this). }
    unfold nullish_coalesce. rewrite Hnn.
    apply attributeChangedCallback_noop.
    + rewrite normalised_id; [|by destruct v|done].
      by rewrite <- strict_eq_object_sym.
    + destruct (builds_tree v) eqn:Hb; [|done].
      apply builds_tree_isDomElement in Hb. congruence.
Qed.

(** C6, as the code has it: writing to the property of a name a value that
    is strictly equal to the stored one, other than [undefined] (while
    nothing is stored, a write of [undefined] is compared with [null]) and
    other than a text or element node (no such node is ever stored),
    changes nothing in the instance; and so does setting an attribute to
    the text it holds.  Nothing changed means that the props state is the
    same and that no call was made to the rendering engine. *)
Theorem same_value_is_noop reg name (this : element) :
  (∀ v, strict_eq (accessor_get name this) v = true →
        v ≠ VUndefined →
        isDomElement v = false →
        let this' := accessor_set reg name v this in
        this' = this ∧ _props this' = _props this ∧ rendered this' = rendered this)
  ∧ (∀ value, attributes this !! toLowerCase name = Some value →
        let this' := setAttribute reg name value this in
        this' = this ∧ _props this' = _props this ∧ rendered this' = rendered this).
Proof.
  split.
  - intros v Heq Hundef Hdom this'. subst this'.
    by rewrite accessor_set_same.
  - intros value Hold this'. subst this'.
    by rewrite setAttribute_same.
Qed.

Lemma setAttribute_kebab reg name value (this : element) :
  setAttribute reg (toKebabCase name) value this
  = let this' :=
      with_attributes (<[toKebabCase name := value]> (attributes this)) this in
    if bool_decide (toKebabCase name ∈ observedAttributes reg)
    then attributeChangedCallback (toKebabCase name)
           (attribute_value (attributes this !! toKebabCase name)) (VString value) this'
    else this'.
Proof. unfold setAttribute. by rewrite toLowerCase_toKebabCase. Qed.




Lemma accessor_get_stored name key v (this : element) (p : gmap string value) :
  name = key ∨ name = toCamelCase key →
  _props this = <[key := v]> (<[toCamelCase key := v]> p) →
  accessor_get name this = v.
Proof.
  intros Hname Hp. unfold accessor_get. rewrite Hp.
  destruct Hname as [->| ->].
  - by rewrite lookup_insert_eq.
  - destruct (decide (key = toCamelCase key)) as [<-|Hne].
    + by rewrite lookup_insert_eq.
    + by rewrite lookup_insert_ne, lookup_insert_eq.
Qed.

(** Setting the attribute of a recognized name stores its text under the
    name, unless the attribute already held that text, in which case
    nothing is stored. *)
Lemma setAttribute_recognized reg name value (this : element) :
  toKebabCase name ∈ observedAttributes reg →
  name = toKebabCase name ∨ name = toCamelCase (toKebabCase name) →
  (attributes this !! toKebabCase name = Some value →
   accessor_get name this = VString value) →
  let this' := setAttribute reg (toKebabCase name) value this in
  accessor_get name this' = VString value
  ∧ attributes this' !! toKebabCase name = Some value.
Proof.
  intros Hobs Hname Hsame this'. subst this'.
  rewrite setAttribute_kebab. cbv zeta.
  rewrite bool_decide_eq_true_2 by done.
  split; [|by rewrite attributeChangedCallback_attributes; simpl;
              rewrite lookup_insert_eq].
  unfold attributeChangedCallback.
  cbn [builds_tree normalised is_nullish isDomElement].
  destruct (strict_eq (VString value) _) eqn:Heq.
  - unfold accessor_get in *. simpl. apply Hsame.
    destruct (attributes this !! toKebabCase name) as [a|]; [|done].
    simpl in Heq. by apply String.eqb_eq in Heq as ->.
  - set (p := <[toKebabCase name := _]> _).
    assert (∀ e : element, _props e = p → accessor_get name e = VString value)
      as Hstored.
    { intros e He. by eapply accessor_get_stored. }
    simpl. destruct (_vdom this); by apply Hstored.
Qed.

(** A new instance stores what its attributes hold, namely nothing, and
    setting the attribute of a recognized name keeps it so. *)
Lemma mirrors_attribute_created reg name : mirrors_attribute name (PreactElement reg).
Proof. done. Qed.

Lemma setAttribute_mirrors reg name value (this : element) :
  toKebabCase name ∈ observedAttributes reg →
  name = toKebabCase name ∨ name = toCamelCase (toKebabCase name) →
  mirrors_attribute name this →
  mirrors_attribute name (setAttribute reg (toKebabCase name) value this).
Proof.
  intros Hobs Hname Hmirror.
  destruct (setAttribute_recognized reg name value this Hobs Hname) as [Hget Hattr].
  { unfold mirrors_attribute in Hmirror. intros Ha. by rewrite Hmirror, Ha. }
  unfold mirrors_attribute. by rewrite Hget, Hattr.
Qed.


(** ** The slot projector *)

Lemma foldl_getSlots_step (childNodes : list node) : ∀ (slots : gmap string (list placeholder)) k,
  foldl getSlots_step slots childNodes !! k
  = match slot_group k childNodes with
    | [] => slots !! k
    | g => Some (default [] (slots !! k) ++ g)%list
    end.
Proof.
  induction childNodes as [|c cs IH]; intros slots k; [done|].
  cbn [foldl]. rewrite IH. unfold slot_group. rewrite filter_cons.
  unfold getSlots_step, in_group.
  destruct (is_text_or_element c); cbn [negb andb].
  - destruct (decide (property_key (node_slot c) = k)) as [Hk|Hk].
    + rewrite bool_decide_eq_true_2 by done. rewrite decide_True by done.
      subst k. rewrite lookup_insert_eq, fmap_cons. simpl.
      destruct (_ <$> filter _ cs); [done|]. by rewrite <- app_assoc.
    + rewrite bool_decide_eq_false_2 by done. rewrite decide_False by done.
      by rewrite lookup_insert_ne.
  - by rewrite decide_False.
Qed.

(** Every text or element child gets one placeholder of its own, and the
    group of a key holds the placeholders of the children filed under
    that key, in document order; a key without a child has no group. *)
Lemma getSlots_lookup (childNodes : list node) k :
  getSlots childNodes !! k
  = match slot_group k childNodes with
    | [] => None
    | g => Some g
    end.
Proof.
  unfold getSlots. rewrite foldl_getSlots_step, lookup_empty.
  by destruct (slot_group k childNodes).
Qed.

(** An element child is filed under its slot name, the empty string when
    it has no [slot] attribute; a text child under the key ["undefined"]. *)
Lemma property_key_element nodeName attrs cs :
  property_key (node_slot (Element nodeName attrs cs)) = default "" (getAttribute "slot" attrs).
Proof. done. Qed.

Lemma property_key_text data : property_key (node_slot (Text data)) = "undefined".
Proof. done. Qed.

(** The slots state after connection: the key [children] holds the group
    named [children] when there is one, and else the unnamed group (or
    [undefined]); every other named group is kept under its name. *)
Lemma connected_slots_lookup (this : element) k :
  connected_slots this !! k
  = if decide (k = "children") then
      Some match slot_group "children" (childNodes this), slot_group "" (childNodes this) with
           | [], [] => Given VUndefined
           | [], g => Slotted g
           | g, _ => Slotted g
           end
    else if decide (k = "") then None
    else Slotted <$> getSlots (childNodes this) !! k.
Proof.
  unfold connected_slots. rewrite lookup_union, lookup_fmap.
  destruct (decide (k = "children")) as [->|Hc].
  - rewrite lookup_delete_ne by done. rewrite lookup_singleton_eq, !getSlots_lookup.
    destruct (slot_group "children" _); [|done].
    by destruct (slot_group "" _).
  - rewrite lookup_singleton_ne by done.
    destruct (decide (k = "")) as [->|He].
    + by rewrite lookup_delete_eq.
    + rewrite lookup_delete_ne by done. by destruct (getSlots _ !! k).
Qed.

(** ** The context bridge *)

Lemma event_path_context_event path : event_path context_event path = target <$> path.
Proof. done. Qed.

Lemma propagate_silent dom (silent rest : list nat) (e : event) :
  (∀ t, t ∈ silent → listeners_of dom t (event_type e) = []) →
  propagation_stopped e = false →
  propagate dom (silent ++ rest) e = propagate dom rest e.
Proof.
  intros Hsilent Hgo. induction silent as [|t silent IH]; [done|].
  simpl. rewrite Hsilent by left. simpl. rewrite Hgo.
  apply IH. intros t' Ht'. apply Hsilent. by right.
Qed.

Lemma propagate_all_silent dom (silent : list nat) (e : event) :
  (∀ t, t ∈ silent → listeners_of dom t (event_type e) = []) →
  propagation_stopped e = false →
  propagate dom silent e = e.
Proof.
  intros Hsilent Hgo.
  rewrite <- (app_nil_r silent). by rewrite propagate_silent.
Qed.


Lemma dispatchEvent_unanswered dom (path : list path_entry) :
  (∀ p, p ∈ path → listeners_of dom (target p) "_preact-ctx" = []) →
  dispatchEvent dom path context_event = context_event.
Proof.
  intros Hpath. unfold dispatchEvent. rewrite event_path_context_event.
  apply propagate_all_silent; [|done].
  intros t' (p & -> & Hp)%list_elem_of_fmap. by apply Hpath.
Qed.

Lemma connectedCallback_vdom dom path (this : element) :
  _vdom (connectedCallback dom path this)
  = Some (h_ContextProvider (discovered_context dom path)
            (h_Component (_vdomComponent this)
               (connected_slots this ∪ (Given <$> _props this)))).
Proof. done. Qed.

(** The first mount of a placeholder registers a listener that holds the
    context of that render. *)
Lemma Slot_mount ctx e (this : Slot_this) dom :
  slot_listener this = None →
  listeners_of dom e "_preact-ctx" = [] →
  let '(this', dom') := (Slot (h_Slot None) ctx).2 (Some e) this dom in
  mounted_with ctx e this' dom'.
Proof.
  intros Hl He. unfold Slot, Slot_ref. cbn [snd]. rewrite Hl.
  unfold addEventListener. rewrite He. cbn [existsb].
  unfold mounted_with. cbn [el slot_listener slot_ref].
  split_and!; [done..|].
  unfold listeners_of. by rewrite lookup_insert_eq.
Qed.

(** A later render does not change the listener: it still holds the
    context of the first mount, whatever the context of the later render
    is. *)
Lemma Slot_rerender_keeps ctx ctx_before ctx' e (this : Slot_this) dom :
  mounted_with ctx e this dom →
  let '(this', dom') := Slot_rerender ctx_before ctx' e this dom in
  mounted_with ctx e this' dom'.
Proof.
  intros (Hel & Hl & He). unfold Slot_rerender, Slot, Slot_ref. cbn [snd].
  rewrite Hel, Hl. unfold removeEventListener.
  set (dom1 := <[(e, "_preact-ctx") := _]> dom).
  assert (listeners_of dom1 e "_preact-ctx" = []) as Hempty.
  { unfold dom1, listeners_of at 1. rewrite lookup_insert_eq. cbn [from_option id].
    rewrite He, filter_cons, decide_False; [done|].
    unfold same_listener. cbn [listener_ref context_listener].
    by rewrite Nat.eqb_refl. }
  unfold addEventListener. rewrite Hempty. cbn [existsb].
  unfold mounted_with. cbn [el slot_listener slot_ref].
  split_and!; [done..|].
  unfold listeners_of. by rewrite lookup_insert_eq.
Qed.


(** ** The two casings of a name *)

Lemma rx_run_empty n pos s k : rx_run (S n) rx_empty pos s k = k pos s.
Proof. done. Qed.

(** The expression of [toCamelCase] matches what [camel_matcher] says. *)
Lemma rx_matcher_camel s : rx_matcher camel_regex s = camel_matcher s.
Proof.
  unfold rx_matcher, camel_regex, camel_matcher. cbn [rx_lit].
  rewrite !rx_run_seq, rx_run_class.
  destruct s as [|c t]; [done|]. fold (is_hyphen c).
  destruct (is_hyphen c); [|by destruct t].
  rewrite rx_run_empty, rx_run_class.
  destruct t as [|d u]; [done|]. by destruct (Char.is_word d).
Qed.

Lemma camel_from_copy offset c t :
  camel_matcher (String c t) = None →
  camel_from offset (String c t) = String c (camel_from (S offset) t).
Proof.
  unfold camel_from. cbn [replace_from]. rewrite rx_matcher_camel. by intros ->.
Qed.

Lemma camel_from_match offset c d t :
  is_hyphen c = true → Char.is_word d = true →
  camel_from offset (String c (String d t))
  = String (Char.to_upper d) (camel_from (S (S offset)) t).
Proof.
  intros Hc Hd. unfold camel_from. cbn [replace_from].
  rewrite rx_matcher_camel. cbn [camel_matcher]. by rewrite Hc, Hd.
Qed.

Lemma camel_matcher_not_hyphen c t : is_hyphen c = false → camel_matcher (String c t) = None.
Proof. intros Hc. destruct t; [done|]. simpl. by rewrite Hc. Qed.

Lemma lower_facts d :
  Char.is_lower d = true →
  Char.is_word d = true ∧ Char.is_upper (Char.to_upper d) = true
  ∧ Char.to_lower (Char.to_upper d) = d ∧ is_hyphen d = false.
Proof. by destruct d as [[] [] [] [] [] [] [] []]. Qed.

Lemma upper_facts c :
  Char.is_upper c = true →
  Char.is_word (Char.to_lower c) = true ∧ Char.to_upper (Char.to_lower c) = c
  ∧ is_hyphen c = false.
Proof. by destruct c as [[] [] [] [] [] [] [] []]. Qed.

Lemma kebab_matcher_single c t :
  Char.is_upper c = true → upper_run t = 0%nat → kebab_matcher (String c t) = Some 1%nat.
Proof.
  intros Hc Ht. unfold kebab_matcher. cbn [upper_run]. rewrite Hc, Ht.
  change (str_drop 1 (String c t)) with t. by destruct (starts_lower t).
Qed.

Lemma kebab_from_single offset c t :
  Char.is_upper c = true → upper_run t = 0%nat →
  kebab_from (S offset) (String c t)
  = String "-" (String (Char.to_lower c) (kebab_from (S (S offset)) t)).
Proof.
  intros Hc Ht. rewrite (kebab_from_match _ _ 1) by by apply kebab_matcher_single.
  change (str_take 1 (String c t)) with (String c "").
  change (str_drop 1 (String c t)) with t.
  replace (S offset + 1)%nat with (S (S offset)) by lia. done.
Qed.

Lemma upper_run_starts s : starts_with Char.is_upper s = false → upper_run s = 0%nat.
Proof. destruct s as [|c t]; [done|]. simpl. by intros ->. Qed.

(** From kebab case to camel case and back. *)
Lemma kebab_from_camel_from n : ∀ s offset offset',
  (String.length s ≤ n)%nat →
  kebab_words s = true →
  offset ≠ 0%nat ∨ starts_with is_hyphen s = false →
  kebab_from offset (camel_from offset' s) = s.
Proof.
  induction n as [|n IH]; intros s offset offset' Hlen Hs Hoff.
  { destruct s; [done|]. simpl in Hlen. lia. }
  destruct s as [|c t]; [done|]. cbn [kebab_words] in Hs.
  destruct (is_hyphen c) eqn:Hc.
  - destruct Hoff as [Hoff|Hoff]; [|simpl in Hoff; congruence].
    destruct offset as [|offset]; [done|].
    destruct t as [|d u]; [done|].
    apply andb_true_iff in Hs as [[Hd Hu]%andb_true_iff Hw].
    apply negb_true_iff in Hu.
    destruct (lower_facts d Hd) as (Hword & Hupper & Hback & _).
    rewrite camel_from_match by done.
    rewrite kebab_from_single; [|done|].
    + rewrite Hback, IH; [|simpl in Hlen; lia|done|by left].
      f_equal. clear -Hc. unfold is_hyphen in Hc. by apply Ascii.eqb_eq in Hc.
    + apply upper_run_starts. destruct u as [|e v]; [done|].
      simpl in Hu. rewrite camel_from_copy by by apply camel_matcher_not_hyphen.
      simpl. cbn [kebab_words] in Hw. rewrite Hu in Hw.
      apply andb_true_iff in Hw as [He _]. by apply negb_true_iff in He.
  - apply andb_true_iff in Hs as [Hn Hw].
    rewrite camel_from_copy by by apply camel_matcher_not_hyphen.
    rewrite kebab_from_copy by by apply kebab_matcher_not_upper.
    rewrite IH; [done|simpl in Hlen; lia|done|by left].
Qed.

Lemma kebab_name_round_trip s :
  kebab_name s = true → toKebabCase (toCamelCase s) = s.
Proof.
  intros [Hh Hw]%andb_true_iff. apply negb_true_iff in Hh.
  apply (kebab_from_camel_from (String.length s)); [done..|by right].
Qed.

(** From camel case to kebab case and back. *)
Lemma camel_from_kebab_from s : ∀ offset offset',
  camel_words s = true →
  offset ≠ 0%nat ∨ starts_with Char.is_upper s = false →
  camel_from offset' (kebab_from offset s) = s.
Proof.
  induction s as [|c t IH]; intros offset offset' Hs Hoff; [done|].
  cbn [camel_words] in Hs.
  apply andb_true_iff in Hs as [[Hc Hrun]%andb_true_iff Hw].
  apply negb_true_iff in Hc.
  destruct (Char.is_upper c) eqn:Hup.
  - destruct Hoff as [Hoff|Hoff]; [|simpl in Hoff; congruence].
    destruct offset as [|offset]; [done|].
    simpl in Hrun. apply negb_true_iff in Hrun.
    destruct (upper_facts c Hup) as (Hword & Hback & _).
    rewrite kebab_from_single by (done || by apply upper_run_starts).
    rewrite camel_from_match by done.
    by rewrite Hback, IH by (done || by left).
  - rewrite kebab_from_copy by (apply kebab_matcher_not_upper; unfold not_upper; by rewrite Hup).
    rewrite camel_from_copy by by apply camel_matcher_not_hyphen.
    by rewrite IH by (done || by left).
Qed.

Lemma camel_name_round_trip s :
  camel_name s = true → toCamelCase (toKebabCase s) = s.
Proof.
  intros [Hh Hw]%andb_true_iff. apply negb_true_iff in Hh.
  apply camel_from_kebab_from; [done|by right].
Qed.

Lemma not_hyphen_upper c : Char.is_upper c = true → is_hyphen c = false.
Proof. by destruct c as [[] [] [] [] [] [] [] []]. Qed.

Lemma hyphen_not_upper c : is_hyphen c = true → Char.is_upper c = false.
Proof. by destruct c as [[] [] [] [] [] [] [] []]. Qed.

(** The camel-case form of a name in kebab case is in camel case. *)
Lemma camel_words_camel_from n : ∀ s offset,
  (String.length s ≤ n)%nat →
  kebab_words s = true →
  camel_words (camel_from offset s) = true
  ∧ (starts_with is_hyphen s = false →
     starts_with Char.is_upper (camel_from offset s) = false).
Proof.
  induction n as [|n IH]; intros s offset Hlen Hs.
  { destruct s; [done|]. simpl in Hlen. lia. }
  destruct s as [|c t]; [done|]. cbn [kebab_words] in Hs.
  destruct (is_hyphen c) eqn:Hc.
  - destruct t as [|d u]; [done|].
    apply andb_true_iff in Hs as [[Hd Hu]%andb_true_iff Hw].
    apply negb_true_iff in Hu.
    destruct (lower_facts d Hd) as (Hword & Hupper & _ & _).
    rewrite camel_from_match by done.
    destruct (IH u (S (S offset))) as [Hcw Hhead]; [simpl in Hlen; lia|done|].
    split; [|intros Hh; cbn [starts_with] in Hh; congruence]. cbn [camel_words].
    rewrite (not_hyphen_upper _ Hupper), Hupper, (Hhead Hu), Hcw. done.
  - apply andb_true_iff in Hs as [Hn Hw].
    rewrite camel_from_copy by by apply camel_matcher_not_hyphen.
    destruct (IH t (S offset)) as [Hcw _]; [simpl in Hlen; lia|done|].
    apply negb_true_iff in Hn.
    split; [|by intros _; cbn]. cbn [camel_words]. by rewrite Hc, Hn, Hcw.
Qed.

(** The kebab-case form of a name in camel case is in kebab case. *)
Lemma kebab_words_kebab_from s : ∀ offset,
  camel_words s = true →
  offset ≠ 0%nat ∨ starts_with Char.is_upper s = false →
  kebab_words (kebab_from offset s) = true
  ∧ starts_with is_hyphen (kebab_from offset s) = starts_with Char.is_upper s.
Proof.
  induction s as [|c t IH]; intros offset Hs Hoff; [done|].
  cbn [camel_words] in Hs.
  apply andb_true_iff in Hs as [[Hc Hrun]%andb_true_iff Hw].
  apply negb_true_iff in Hc.
  destruct (Char.is_upper c) eqn:Hup.
  - destruct Hoff as [Hoff|Hoff]; [|simpl in Hoff; congruence].
    destruct offset as [|offset]; [done|].
    simpl in Hrun. apply negb_true_iff in Hrun.
    rewrite kebab_from_single by (done || by apply upper_run_starts).
    destruct (IH (S (S offset))) as [Hkw Hhead]; [done|by left|].
    split; [|by cbn [starts_with]; rewrite Hup]. cbn [kebab_words is_hyphen Ascii.eqb].
    change (Ascii.eqb "-" "-") with true. cbv iota.
    rewrite Hhead, Hrun, Hkw.
    assert (Char.is_lower (Char.to_lower c) = true) as ->
      by (clear -Hup; by destruct c as [[] [] [] [] [] [] [] []]).
    done.
  - rewrite kebab_from_copy
      by (apply kebab_matcher_not_upper; unfold not_upper; by rewrite Hup).
    destruct (IH (S offset)) as [Hkw _]; [done|by left|].
    split; [|by cbn [starts_with]; rewrite Hc, Hup]. cbn [kebab_words].
    rewrite Hc, Hkw. unfold not_upper. by rewrite Hup.
Qed.

(** X1: a name in kebab case has a camel-case form that is in camel
    case, and it comes back from that form: [toKebabCase] undoes
    [toCamelCase] on it. *)
Theorem toKebabCase_toCamelCase s :
  kebab_name s = true →
  camel_name (toCamelCase s) = true ∧ toKebabCase (toCamelCase s) = s.
Proof.
  intros Hs. split; [|by apply kebab_name_round_trip].
  apply andb_true_iff in Hs as [Hh Hw]. apply negb_true_iff in Hh.
  destruct (camel_words_camel_from (String.length s) s 0) as [Hcw Hhead]; [done..|].
  unfold camel_name. fold (camel_from 0 s) in *.
  change (toCamelCase s) with (camel_from 0 s). by rewrite Hcw, Hhead.
Qed.

(** X2: a name in camel case has a kebab-case form that is in kebab
    case, and it comes back from that form: [toCamelCase] undoes
    [toKebabCase] on it. *)
Theorem toCamelCase_toKebabCase s :
  camel_name s = true →
  kebab_name (toKebabCase s) = true ∧ toCamelCase (toKebabCase s) = s.
Proof.
  intros Hs. split; [|by apply camel_name_round_trip].
  apply andb_true_iff in Hs as [Hh Hw]. apply negb_true_iff in Hh.
  destruct (kebab_words_kebab_from s 0) as [Hkw Hhead]; [done|by right|].
  unfold kebab_name. change (toKebabCase s) with (kebab_from 0 s).
  by rewrite Hkw, Hhead, Hh.
Qed.

Lemma camel_from_unchanged s : ∀ offset,
  no_hyphen_word s = true → camel_from offset s = s.
Proof.
  induction s as [|c t IH]; intros offset Hs; [done|].
  cbn [no_hyphen_word] in Hs. apply andb_true_iff in Hs as [Hc Ht].
  rewrite camel_from_copy, IH; [done..|].
  destruct t as [|d u]; [done|]. simpl in *.
  by destruct (is_hyphen c), (Char.is_word d).
Qed.

(** X3: [toCamelCase] only touches a hyphen that is followed by a word
    character: a string without one is returned unchanged, and capitals in
    it are left alone. *)
Theorem toCamelCase_unchanged s : no_hyphen_word s = true → toCamelCase s = s.
Proof. apply camel_from_unchanged. Qed.

(** ** Registration with names in one of the two casings *)

Lemma kebab_words_not_upper s : kebab_words s = true → str_forall not_upper s = true.
Proof.
  assert (∀ n s, (String.length s ≤ n)%nat → kebab_words s = true →
                 str_forall not_upper s = true) as Hn; [|by apply (Hn (String.length s))].
  clear s. induction n as [|n IH]; intros s Hlen Hs.
  { destruct s; [done|]. simpl in Hlen. lia. }
  destruct s as [|c t]; [done|]. cbn [kebab_words] in Hs.
  destruct (is_hyphen c) eqn:Hc.
  - destruct t as [|d u]; [done|].
    apply andb_true_iff in Hs as [[Hd _]%andb_true_iff Hw].
    cbn [str_forall]. rewrite (IH u) by (done || simpl in Hlen; lia).
    assert (not_upper c = true) as -> by (clear -Hc; by destruct c as [[] [] [] [] [] [] [] []]).
    assert (not_upper d = true) as -> by (clear -Hd; by destruct d as [[] [] [] [] [] [] [] []]).
    done.
  - apply andb_true_iff in Hs as [Hn Hw]. cbn [str_forall].
    by rewrite Hn, (IH t) by (done || simpl in Hlen; lia).
Qed.

Lemma camel_words_no_hyphen_word s : camel_words s = true → no_hyphen_word s = true.
Proof.
  induction s as [|c t IH]; [done|]. cbn [camel_words no_hyphen_word].
  intros [[Hc _]%andb_true_iff Hw]%andb_true_iff.
  apply negb_true_iff in Hc. by rewrite Hc, IH.
Qed.

Lemma toKebabCase_of_kebab_name s : kebab_name s = true → toKebabCase s = s.
Proof.
  intros [_ Hw]%andb_true_iff. by apply kebab_from_no_upper, kebab_words_not_upper.
Qed.

Lemma toCamelCase_of_camel_name s : camel_name s = true → toCamelCase s = s.
Proof.
  intros [_ Hw]%andb_true_iff. by apply camel_from_unchanged, camel_words_no_hyphen_word.
Qed.

(** A name in one of the two casings has the same kebab-case form as its
    camel-case form, and either form leads back to the other. *)
Lemma cased_name_forms p :
  kebab_name p = true ∨ camel_name p = true →
  toKebabCase (toCamelCase p) = toKebabCase p
  ∧ toCamelCase (toKebabCase (toCamelCase p)) = toCamelCase p.
Proof.
  intros [Hk|Hc].
  - rewrite kebab_name_round_trip by done. by rewrite toKebabCase_of_kebab_name.
  - rewrite (toCamelCase_of_camel_name p Hc). split; [done|].
    by apply camel_name_round_trip.
Qed.

(** X4: the attributes that a registration observes have no capital letter:
    they are left as they are by the lower-casing that the platform
    applies to the name of an attribute, and by [toKebabCase]. *)
Theorem observedAttributes_lower_case C tagName names opts a :
  a ∈ observedAttributes (register C tagName names opts) →
  str_forall not_upper a = true ∧ toLowerCase a = a ∧ toKebabCase a = a.
Proof.
  intros (n & _ & ->)%elem_of_observedAttributes.
  split_and!.
  - apply toKebabCase_not_upper.
  - apply toLowerCase_toKebabCase.
  - apply toKebabCase_idempotent.
Qed.

(** X5: when every supplied name is in kebab case or in camel case, each one
    is recognized together with its two forms, every recognized name is
    its own kebab-case form or the camel-case form of it, and the observed
    attributes are the kebab-case forms of the supplied names and no
    other. *)
Theorem register_cased_names C tagName names opts :
  (∀ p, p ∈ supplied_names C names → kebab_name p = true ∨ camel_name p = true) →
  let reg := register C tagName names opts in
  (∀ p, p ∈ supplied_names C names →
        p ∈ propNames reg ∧ toCamelCase p ∈ propNames reg ∧ toKebabCase p ∈ propNames reg)
  ∧ (∀ n, n ∈ propNames reg → n = toKebabCase n ∨ n = toCamelCase (toKebabCase n))
  ∧ (∀ a, a ∈ observedAttributes reg ↔ a ∈ map toKebabCase (supplied_names C names)).
Proof.
  intros Hcased reg. subst reg. split_and!.
  - intros p Hp. split_and!; try (apply elem_of_propNames; by eauto).
    apply elem_of_propNames. exists p. split; [done|].
    destruct (Hcased p Hp) as [Hk|Hc].
    + right. by rewrite toKebabCase_of_kebab_name.
    + left. by rewrite toCamelCase_of_camel_name.
  - intros n (p & Hp & [->| ->])%elem_of_propNames.
    + right. by destruct (cased_name_forms p (Hcased p Hp)) as [_ ->].
    + left. by rewrite toKebabCase_idempotent.
  - intros a. rewrite elem_of_observedAttributes, list_elem_of_fmap. split.
    + intros (n & (p & Hp & [->| ->])%elem_of_propNames & ->); exists p.
      * by destruct (cased_name_forms p (Hcased p Hp)) as [-> _].
      * by rewrite toKebabCase_idempotent.
    + intros (p & -> & Hp). exists (toKebabCase p).
      rewrite toKebabCase_idempotent. split; [|done].
      apply elem_of_propNames. eauto.
Qed.

(** ** The projection of DOM nodes *)

Lemma getAttribute_filter_slot k (attrs : list (string * string)) :
  getAttribute k (filter (λ attr, attr.1 ≠ "slot") attrs)
  = if decide (k = "slot") then None else getAttribute k attrs.
Proof.
  induction attrs as [|[k' v] attrs IH]; [by case_decide|].
  rewrite filter_cons. cbn [fst getAttribute].
  destruct (decide (k' ≠ "slot")) as [Hk'|Hk'].
  - cbn [getAttribute]. destruct (String.eqb_spec k' k) as [->|Hne]; [|done].
    by rewrite decide_False.
  - apply dec_stable in Hk'. subst k'. rewrite IH.
    destruct (String.eqb_spec "slot" k) as [<-|Hne]; [by rewrite decide_True|].
    by rewrite decide_False.
Qed.

(** X6: the projection of a node keeps its text and drops every [slot]
    attribute.  The strings of the projection, in order, are the text
    under the node in document order, comments and processing
    instructions giving none; and at no depth is [h] handed a prop named
    [slot]. *)
Theorem nodeToVNode_keeps_text : ∀ n : node,
  vchild_text (nodeToVNode n) = text_under n
  ∧ vchild_lacks "slot" (nodeToVNode n) = true.
Proof.
  fix IH 1.
  intros [data|nodeName attrs children|target data|data];
    [split; reflexivity| |split; reflexivity..].
  cbn [nodeToVNode vchild_text vnode_text text_under vchild_lacks vnode_lacks].
  split.
  - induction children as [|c cs IHcs]; [done|].
    cbn [map foldr]. rewrite IHcs.
    change (match nodeToVNode c with
            | child_text data => data
            | child_null => ""
            | child_vnode v' => vnode_text v'
            end) with (vchild_text (nodeToVNode c)).
    by destruct (IH c) as [-> _].
  - apply andb_true_iff. split.
    + apply bool_decide_eq_true. by rewrite getAttribute_filter_slot, decide_True.
    + induction children as [|c cs IHcs]; [done|].
      cbn [map forallb]. rewrite IHcs.
      change (match nodeToVNode c with
              | child_vnode v' => vnode_lacks "slot" v'
              | _ => true
              end) with (vchild_lacks "slot" (nodeToVNode c)).
      by destruct (IH c) as [_ ->].
Qed.

(** ** More on the slot projector *)

Lemma placeholder_count_insert (slots : gmap string (list placeholder)) k p :
  placeholder_count (<[k := (default [] (slots !! k) ++ [p])%list]> slots)
  = S (placeholder_count slots).
Proof.
  unfold placeholder_count.
  assert (∀ (j1 j2 : string) (z1 z2 : list placeholder) (y : nat),
            (List.length z1 + (List.length z2 + y) = List.length z2 + (List.length z1 + y))%nat)
    as Hcomm by (intros; lia).
  destruct (slots !! k) as [old|] eqn:Hk; simpl.
  - rewrite <- insert_delete_eq.
    rewrite map_fold_insert_L; [|by intros; apply Hcomm|by rewrite lookup_delete_eq].
    rewrite <- (insert_delete_id slots k old) at 2 by done.
    rewrite (map_fold_insert_L _ _ k old); [|by intros; apply Hcomm|by rewrite lookup_delete_eq].
    rewrite length_app. simpl. lia.
  - rewrite map_fold_insert_L; [done|by intros; apply Hcomm|done].
Qed.

Lemma placeholder_count_foldl (childNodes : list node) : ∀ slots,
  placeholder_count (foldl getSlots_step slots childNodes)
  = (placeholder_count slots
     + List.length (filter (λ c, is_text_or_element c = true) childNodes))%nat.
Proof.
  induction childNodes as [|c cs IH]; intros slots; [simpl; lia|].
  cbn [foldl]. rewrite IH, filter_cons. unfold getSlots_step.
  destruct (is_text_or_element c); cbn [negb].
  - rewrite decide_True by done. rewrite placeholder_count_insert. simpl. lia.
  - by rewrite decide_False.
Qed.

Lemma getSlots_throws_app (cs1 cs2 : list node) :
  getSlots_throws (cs1 ++ cs2) = getSlots_throws cs1 || getSlots_throws cs2.
Proof. apply existsb_app. Qed.

Lemma getSlots_throws_filter (childNodes : list node) :
  getSlots_throws (filter (λ c, is_text_or_element c = true) childNodes)
  = getSlots_throws childNodes.
Proof.
  unfold getSlots_throws.
  induction childNodes as [|c cs IH]; [done|].
  rewrite filter_cons. destruct (is_text_or_element c) eqn:Hc.
  - rewrite decide_True by done. cbn [existsb]. by rewrite IH.
  - rewrite decide_False by done. cbn [existsb]. by rewrite Hc, IH.
Qed.

(** X7: when [getSlots] does not throw, there are as many placeholders as
    there are text and element children: none is lost and none is made
    twice. *)
Theorem getSlots_count (childNodes : list node) :
  getSlots_throws childNodes = false →
  placeholder_count (getSlots childNodes)
  = List.length (filter (λ c, is_text_or_element c = true) childNodes).
Proof.
  intros _. unfold getSlots. rewrite placeholder_count_foldl.
  unfold placeholder_count. by rewrite map_fold_empty.
Qed.

(** X8: no group is empty; the placeholders of the unnamed group have no
    name, and those of a group with another key have that key as their
    name, except in the group ["undefined"], where the placeholders of
    text children have none. *)
Theorem getSlots_names (childNodes : list node) k group :
  getSlots childNodes !! k = Some group →
  group ≠ []
  ∧ ∀ p, p ∈ group →
      (slot_name p = None ∨ slot_name p = Some k)
      ∧ (k = "" → slot_name p = None)
      ∧ (k ≠ "" → k ≠ "undefined" → slot_name p = Some k).
Proof.
  rewrite getSlots_lookup. destruct (slot_group k childNodes) as [|p0 g] eqn:Hg; [done|].
  intros [= <-]. split; [done|]. rewrite <- Hg. clear Hg.
  intros p (c & -> & [Hc _]%list_elem_of_filter)%list_elem_of_fmap.
  unfold in_group in Hc. apply andb_true_iff in Hc as [_ Hk].
  apply bool_decide_eq_true in Hk. subst k. cbn [slot_name].
  destruct (node_slot c) as [s|]; simpl.
  - destruct s as [|a s]; simpl; split_and!; try done; by auto.
  - split_and!; try done; by auto.
Qed.

Lemma slot_group_app k (cs1 cs2 : list node) :
  slot_group k (cs1 ++ cs2) = (slot_group k cs1 ++ slot_group k cs2)%list.
Proof. unfold slot_group. by rewrite filter_app, fmap_app. Qed.

Lemma slot_group_filter k (childNodes : list node) :
  slot_group k (filter (λ c, is_text_or_element c = true) childNodes)
  = slot_group k childNodes.
Proof.
  unfold slot_group. f_equal. rewrite list_filter_filter.
  apply list_filter_iff. intros c. unfold in_group.
  destruct (is_text_or_element c); naive_solver.
Qed.

(** X9: when [getSlots] does not throw on a list of children, it does not
    throw on the two parts of the list, nor on its text and element
    children alone.  Children of another kind than text and element
    leave no trace: the slots of a list of children are those of its text
    and element children.  And the groups of the list are those of its
    first part, each followed by the group that the rest of the children
    has under the same key. *)
Theorem getSlots_app_filter (cs1 cs2 : list node) :
  getSlots_throws (cs1 ++ cs2) = false →
  getSlots_throws cs1 = false
  ∧ getSlots_throws cs2 = false
  ∧ getSlots_throws (filter (λ c, is_text_or_element c = true) cs1) = false
  ∧ getSlots (filter (λ c, is_text_or_element c = true) cs1) = getSlots cs1
  ∧ ∀ k,
      getSlots (cs1 ++ cs2) !! k
      = match getSlots cs1 !! k, getSlots cs2 !! k with
        | Some g1, Some g2 => Some (g1 ++ g2)%list
        | Some g1, None => Some g1
        | None, g2 => g2
        end.
Proof.
  rewrite getSlots_throws_app. intros [H1 H2]%orb_false_iff.
  split_and!; [done|done|by rewrite getSlots_throws_filter|..].
  - apply map_eq. intros k. by rewrite !getSlots_lookup, slot_group_filter.
  - intros k. rewrite !getSlots_lookup, slot_group_app.
    destruct (slot_group k cs1), (slot_group k cs2); by rewrite ?app_nil_r.
Qed.

(** ** What holds of every instance, whatever happened to it *)

(** One operation keeps what the callbacks and the changes of the
    platform's side of the element keep; the handling of attribute
    changes only runs for observed attributes. *)
Lemma run_invariant C tagName names opts (P : element → Prop) :
  let reg := register C tagName names opts in
  (∀ this dom path, P this → P (connectedCallback dom path this)) →
  (∀ this, P this → P (disconnectedCallback this)) →
  (∀ this a, P this → P (with_attributes a this)) →
  (∀ this t, P this → P (with_l t this)) →
  (∀ this c, P this → P (with_childNodes c this)) →
  (∀ this name oldVal newVal,
     name ∈ observedAttributes reg → P this →
     P (attributeChangedCallback name oldVal newVal this)) →
  ∀ o this, P this → P (run reg o this).
Proof.
  intros reg Hconnect Hdisconnect Hattrs Hl Hchildren Hchanged o this HP.
  assert (∀ n, n ∈ propNames reg → toKebabCase n ∈ observedAttributes reg) as Hobs
    by (intros n; apply recognized_observed).
  assert (∀ q text this', P this' → P (setAttribute reg q text this')) as Hset.
  { intros q text this' HP'. unfold setAttribute. case_bool_decide; auto. }
  destruct o as [dom path| |q text|q|nodes|name v|prop val]; cbn [run]; auto.
  - unfold removeAttribute. destruct (attributes this !! _); [|done].
    case_bool_decide; auto.
  - case_bool_decide; [|done]. unfold accessor_set.
    destruct (isPrimitive v); [destruct (strict_eq _ v)|]; auto.
  - unfold l_set. case_bool_decide; auto.
Qed.

Lemma reachable_invariant C tagName names opts (P : element → Prop) :
  let reg := register C tagName names opts in
  P (PreactElement reg) →
  (∀ o this, P this → P (run reg o this)) →
  ∀ this, reachable reg this → P this.
Proof.
  intros reg Hinit Hstep this [ops ->].
  unfold run_all. generalize (PreactElement reg) Hinit.
  induction ops as [|o ops IH]; intros init HP; [done|].
  cbn [foldl]. apply IH. by apply Hstep.
Qed.

Lemma PreactElement_props reg : _props (PreactElement reg) = ∅.
Proof. done. Qed.

Lemma disconnectedCallback_props (this : element) : _props (disconnectedCallback this) = ∅.
Proof. done. Qed.

(** X10: the props state never holds [null], nor a live text or element node:
    [null] is stored as [undefined], and such a node as its projection. *)
Theorem stored_values_normalised C tagName names opts (this : element) :
  reachable (register C tagName names opts) this →
  ∀ k v, _props this !! k = Some v → v ≠ VNull ∧ isDomElement v = false.
Proof.
  set (P := λ this : element,
              ∀ k v, _props this !! k = Some v → v ≠ VNull ∧ isDomElement v = false).
  apply (reachable_invariant C tagName names opts P).
  { intros k v. by rewrite PreactElement_props, lookup_empty. }
  apply (run_invariant C tagName names opts P); unfold P; cbn beta; try done.
  intros this' name oldVal newVal _ HP k v.
  rewrite attributeChangedCallback_props.
  destruct (strict_eq _ _); [apply HP|].
  intros Hk. apply lookup_insert_Some in Hk as [[_ <-]|[_ Hk]];
    [apply normalised_not_node|].
  apply lookup_insert_Some in Hk as [[_ <-]|[_ Hk]];
    [apply normalised_not_node|by eapply HP].
Qed.

(** X11: every key of the props state is an observed attribute or the
    camel-case form of one. *)
Theorem stored_keys_observed C tagName names opts (this : element) :
  reachable (register C tagName names opts) this →
  ∀ k, is_Some (_props this !! k) →
       ∃ a, a ∈ observedAttributes (register C tagName names opts)
            ∧ (k = a ∨ k = toCamelCase a).
Proof.
  set (P := λ this : element,
              ∀ k, is_Some (_props this !! k) →
                   ∃ a, a ∈ observedAttributes (register C tagName names opts)
                        ∧ (k = a ∨ k = toCamelCase a)).
  apply (reachable_invariant C tagName names opts P).
  { intros k. rewrite PreactElement_props, lookup_empty. by intros [? ?]. }
  apply (run_invariant C tagName names opts P); unfold P; cbn beta; try done.
  - intros this' _ k. rewrite disconnectedCallback_props, lookup_empty. by intros [? ?].
  - intros this' name oldVal newVal Hname HP k.
    rewrite attributeChangedCallback_props.
    destruct (strict_eq _ _); [apply HP|].
    destruct (decide (name = k)) as [<-|Hk]; [by eauto|].
    rewrite lookup_insert_ne by done.
    destruct (decide (toCamelCase name = k)) as [<-|Hk']; [by eauto|].
    rewrite lookup_insert_ne by done. apply HP.
Qed.

Lemma tree_in_sync_changed name oldVal newVal (this : element) :
  tree_in_sync this → tree_in_sync (attributeChangedCallback name oldVal newVal this).
Proof.
  unfold attributeChangedCallback. intros Hsync.
  assert (tree_in_sync
            (if builds_tree newVal then with_next_ref (S (next_ref this)) this else this))
    as Hsync' by by destruct (builds_tree newVal).
  destruct (strict_eq _ _); [done|].
  clear Hsync. revert Hsync'.
  generalize (if builds_tree newVal then with_next_ref (S (next_ref this)) this else this).
  intros [comp root lis props slots [vdom|] attrs nodes calls ref]; [|done].
  intros _. unfold tree_in_sync. cbn. split; [done|]. left. apply last_snoc.
Qed.

(** X12: the stored tree is the one last handed to the rendering engine, with
    the component of the registration and the props and slots that the
    instance has now; an instance without a stored tree has not been
    rendered yet, or [null] was rendered last. *)
Theorem tree_always_in_sync C tagName names opts (this : element) :
  reachable (register C tagName names opts) this →
  tree_in_sync this ∧ _vdomComponent this = Component_ref C.
Proof.
  set (P := λ this : element, tree_in_sync this ∧ _vdomComponent this = Component_ref C).
  apply (reachable_invariant C tagName names opts P).
  { split; [by left|done]. }
  apply (run_invariant C tagName names opts P); unfold P; cbn beta.
  - intros this' dom path [_ Hc]. split; [|done].
    unfold tree_in_sync, connectedCallback. cbn. split; [done|].
    destruct (hasAttribute _ _); [right|left]; apply last_snoc.
  - intros this' [_ Hc]. split; [|done].
    unfold tree_in_sync. cbn. right. apply last_snoc.
  - by intros [] a.
  - by intros [] t.
  - by intros [] c.
  - intros this' name oldVal newVal _ [Hsync Hc]. split.
    + by apply tree_in_sync_changed.
    + rewrite <- Hc. unfold attributeChangedCallback.
      destruct (builds_tree newVal), (strict_eq _ _); try done;
        simpl; by destruct (_vdom this').
Qed.

Lemma attributeChangedCallback_context name oldVal newVal (this : element) :
  provided_context (attributeChangedCallback name oldVal newVal this)
  = provided_context this.
Proof.
  unfold attributeChangedCallback, provided_context.
  destruct this as [comp root lis props slots [vdom|] attrs nodes calls ref];
    by destruct (builds_tree newVal), (strict_eq _ _).
Qed.

(** X13: the context is a matter of connection alone: an attribute set or
    removed, a property written, a listener set or the children changed
    leave the instance with the context that its tree provided, and
    without a tree if it had none. *)
Theorem updates_keep_context reg o (this : element) :
  is_update o = true →
  provided_context (run reg o this) = provided_context this.
Proof.
  intros Ho.
  assert (∀ q text this', provided_context (setAttribute reg q text this')
                          = provided_context this') as Hset.
  { intros q text this'. unfold setAttribute.
    case_bool_decide; [|done]. by rewrite attributeChangedCallback_context. }
  destruct o as [dom path| |q text|q|nodes|name v|prop val]; try done; cbn [run];
    try done.
  - unfold removeAttribute. destruct (attributes this !! _); [|done].
    case_bool_decide; [|done]. by rewrite attributeChangedCallback_context.
  - case_bool_decide; [|done]. unfold accessor_set.
    destruct (isPrimitive v); [destruct (strict_eq _ v)|]; try done.
    by rewrite attributeChangedCallback_context.
  - unfold l_set. case_bool_decide; [|done].
    by rewrite attributeChangedCallback_context.
Qed.

(** ** How the operations compose *)


(** X15: what the component is given on connection, when [getSlots] takes
    the children: under a key of the slots state the entry of the slots,
    and the stored value only under the other keys.  Under [children]
    that is the group of the children in the slot named [children] when
    there are such children, else the group of the children without a
    slot name when there are such, and else [undefined]: never a stored
    value. *)
Theorem slots_shadow_props dom path (this : element) :
  getSlots_throws (childNodes this) = false →
  let this' := connectedCallback dom path this in
  ∃ props,
    rendered_props this' = Some props
    ∧ (∀ k, props !! k
            = match connected_slots this !! k with
              | Some p => Some p
              | None => Given <$> _props this !! k
              end)
    ∧ props !! "children"
      = Some match slot_group "children" (childNodes this),
                   slot_group "" (childNodes this) with
             | p :: g, _ => Slotted (p :: g)
             | [], p :: g => Slotted (p :: g)
             | [], [] => Given VUndefined
             end.
Proof.
  intros _ this'. subst this'. eexists.
  split; [unfold rendered_props; by rewrite connectedCallback_vdom|].
  assert (∀ k, (connected_slots this ∪ (Given <$> _props this)) !! k
               = match connected_slots this !! k with
                 | Some p => Some p
                 | None => Given <$> _props this !! k
                 end) as Hk.
  { intros k. rewrite lookup_union, lookup_fmap.
    destruct (connected_slots this !! k); [|by rewrite (left_id None _)].
    by destruct (_props this !! k). }
  split; [apply Hk|].
  rewrite Hk, connected_slots_lookup, decide_True by done.
  by destruct (slot_group "children" (childNodes this)),
       (slot_group "" (childNodes this)).
Qed.






Lemma normalised_complex ref (v : value) :
  isPrimitive v = false →
  is_nullish (normalised ref v) = false
  ∧ (∀ n, normalised ref v ≠ VNumber n)
  ∧ strict_eq (normalised ref v) (normalised ref v) = true.
Proof.
  destruct v as [| | | | |r|r|r n|r t]; try done; intros _; unfold normalised; simpl.
  - split_and!; [done..|]. apply Nat.eqb_refl.
  - split_and!; [done..|]. apply Nat.eqb_refl.
  - destruct n; simpl; split_and!; try done;
      try apply Nat.eqb_refl; apply String.eqb_refl.
  - split_and!; [done..|]. apply Nat.eqb_refl.
Qed.


Lemma attributeChangedCallback_with_l name oldVal newVal t (this : element) :
  attributeChangedCallback name oldVal newVal (with_l t this)
  = with_l t (attributeChangedCallback name oldVal newVal this).
Proof.
  unfold attributeChangedCallback.
  destruct this as [comp root lis props slots [vdom|] attrs nodes calls ref];
    by destruct (builds_tree newVal), (strict_eq _ _).
Qed.

Lemma attributeChangedCallback_oldVal name oldVal oldVal' newVal (this : element) :
  strict_eq (normalised (next_ref this) newVal) oldVal
  = strict_eq (normalised (next_ref this) newVal) oldVal' →
  attributeChangedCallback name oldVal newVal this
  = attributeChangedCallback name oldVal' newVal this.
Proof. unfold attributeChangedCallback. by intros ->. Qed.

(** X18: a listener that the renderer sets through the proxy is kept in the
    target of the proxy; when the name made from its key is not a
    recognized one, nothing else happens, and when it is, the rest is what
    a write of the listener to the property of that name does. *)
Theorem listener_is_write reg prop val (this : element) :
  let name := listener_prop_name prop in
  let kept := <[prop := val]> (l this) in
  l (l_set reg prop val this) = kept
  ∧ (name ∉ propNames reg → l_set reg prop val this = with_l kept this)
  ∧ (name ∈ propNames reg → isPrimitive val = false →
       l_set reg prop val this = with_l kept (accessor_set reg name val this)).
Proof.
  intros name kept. subst name kept. unfold l_set. split_and!.
  - case_bool_decide; [|done]. rewrite attributeChangedCallback_with_l. done.
  - intros Hn. by rewrite bool_decide_eq_false_2.
  - intros Hn Hprim. rewrite bool_decide_eq_true_2 by done.
    rewrite attributeChangedCallback_with_l. f_equal.
    unfold accessor_set. rewrite Hprim.
    apply attributeChangedCallback_oldVal.
    destruct (normalised_complex (next_ref this) val Hprim) as (Hnn & _ & _).
    change (accessor_get (listener_prop_name prop) (with_l (<[prop:=val]> (l this)) this))
      with (accessor_get (listener_prop_name prop) this).
    unfold nullish_coalesce.
    destruct (accessor_get (listener_prop_name prop) this); try done;
      by destruct (normalised _ val).
Qed.


(** ** More on the placeholders *)

Lemma listeners_of_insert dom key ls target type :
  listeners_of (<[key := ls]> dom) target type
  = if decide (key = (target, type)) then ls else listeners_of dom target type.
Proof.
  unfold listeners_of. case_decide as Hk.
  - subst key. by rewrite lookup_insert_eq.
  - by rewrite lookup_insert_ne.
Qed.

(** X20: when the engine calls the [ref] of a mounted placeholder with [null],
    the listener is taken off the element: the element has no listener
    left, the listeners of the other targets are as before, and an event
    on whose way only that element had a listener is not answered any
    more. *)
Theorem Slot_unmount_silences ctx ctx' e (this : Slot_this) dom :
  mounted_with ctx e this dom →
  let '(this', dom') := (Slot (h_Slot None) ctx').2 None this dom in
  this' = this
  ∧ listeners_of dom' e "_preact-ctx" = []
  ∧ (∀ e' type, e' ≠ e → listeners_of dom' e' type = listeners_of dom e' type)
  ∧ (∀ path,
       (∀ p, p ∈ path → target p ≠ e →
             listeners_of dom (target p) "_preact-ctx" = []) →
       discovered_context dom' path = VUndefined).
Proof.
  intros (Hel & Hl & He). unfold Slot, Slot_ref. cbn [snd].
  rewrite Hel, Hl. unfold removeEventListener. rewrite He.
  set (dom' := <[(e, "_preact-ctx") := _]> dom).
  assert (listeners_of dom' e "_preact-ctx" = []) as Hempty.
  { unfold dom'. rewrite listeners_of_insert, decide_True by done.
    rewrite filter_cons, decide_False; [done|].
    unfold same_listener. cbn [listener_ref context_listener].
    by rewrite Nat.eqb_refl. }
  assert (∀ e' type, e' ≠ e → listeners_of dom' e' type = listeners_of dom e' type)
    as Hother.
  { intros e' type Hne. unfold dom'. rewrite listeners_of_insert, decide_False; [done|].
    by intros [= <- _]. }
  split_and!; try done.
  intros path Hpath. unfold discovered_context.
  rewrite dispatchEvent_unanswered; [done|].
  intros p Hp. destruct (decide (target p = e)) as [->|Hne]; [done|].
  rewrite Hother by done. by apply Hpath.
Qed.

(** X21: when the engine calls the [ref] of a mounted placeholder with the
    element it is mounted on, nothing changes, whatever the context of
    the render is: the element never has two listeners of one
    placeholder. *)
Theorem Slot_mount_twice ctx ctx' e (this : Slot_this) dom :
  mounted_with ctx e this dom →
  (Slot (h_Slot None) ctx').2 (Some e) this dom = (this, dom).
Proof.
  intros (Hel & Hl & He). unfold Slot, Slot_ref. cbn [snd].
  rewrite Hl. unfold addEventListener. rewrite He. cbn [existsb].
  unfold same_listener. cbn [listener_ref context_listener].
  rewrite Nat.eqb_refl. cbn [orb]. f_equal.
  destruct this as [ref el0 l0]. cbn in *. by rewrite Hel, Hl.
Qed.

(** ** The reduced variant and the full one *)






(** ** The key of a listener *)

Lemma rx_run_lit p : ∀ n pos s k,
  rx_run (S n) (rx_lit p) pos s k
  = if str_prefix p s
    then k (pos + String.length p)%nat (str_drop (String.length p) s)
    else None.
Proof.
  induction p as [|a p IH]; intros n pos s k.
  { cbn [rx_lit str_prefix String.length str_drop]. rewrite rx_run_empty.
    by rewrite Nat.add_0_r; destruct s. }
  cbn [rx_lit]. rewrite rx_run_seq, rx_run_class.
  destruct s as [|b s]; [done|]. cbn [str_prefix String.length str_drop].
  destruct (Ascii.eqb a b); [|done]. rewrite IH. cbn [andb].
  destruct (str_prefix p s); [|done]. f_equal. lia.
Qed.

(** The expression [/(true)|(false)/] matches one of the two words at the
    head of the string. *)
Lemma rx_matcher_true_false s :
  rx_matcher true_false_regex s
  = if str_prefix "true" s then Some 4%nat
    else if str_prefix "false" s then Some 5%nat
    else None.
Proof.
  unfold rx_matcher, true_false_regex. rewrite rx_run_alt, !rx_run_lit.
  by destruct (str_prefix "true" s), (str_prefix "false" s).
Qed.

Lemma str_app_cons c (s t : string) : String c s +:+ t = String c (s +:+ t).
Proof. done. Qed.

Lemma str_app_nil (t : string) : "" +:+ t = t.
Proof. done. Qed.

(** A flag put after a string does not make one of the two words begin
    inside the string. *)
Lemma str_prefix_flag p x c (s : string) :
  p = "true" ∨ p = "false" → x = "true" ∨ x = "false" →
  str_prefix p (String c s) = false →
  str_prefix p (String c s +:+ x) = false.
Proof.
  intros Hp Hx.
  destruct s as [|c1 [|c2 [|c3 [|c4 s]]]];
    destruct Hp as [-> | ->], Hx as [-> | ->];
    rewrite ?str_app_cons, ?str_app_nil; cbn [str_prefix];
    rewrite ?andb_false_r; try done.
  all: cbn; rewrite ?andb_false_r; try done.
Qed.

Lemma replace_first_flag s : ∀ offset x,
  x = "true" ∨ x = "false" →
  no_flag s = true →
  replace_first (rx_matcher true_false_regex) (λ _ _, "") offset (s +:+ x) = s.
Proof.
  induction s as [|c s IH]; intros offset x Hx Hs.
  { by destruct Hx as [-> | ->]. }
  cbn [no_flag] in Hs.
  apply andb_true_iff in Hs as [[Ht Hf]%andb_true_iff Hs].
  apply negb_true_iff in Ht, Hf.
  rewrite str_app_cons. cbn [replace_first].
  rewrite <- str_app_cons, rx_matcher_true_false.
  rewrite !str_prefix_flag by auto.
  by rewrite IH.
Qed.

Lemma replace_first_no_flag s : ∀ offset,
  no_flag s = true →
  replace_first (rx_matcher true_false_regex) (λ _ _, "") offset s = s.
Proof.
  induction s as [|c s IH]; intros offset Hs; [done|].
  cbn [replace_first]. rewrite rx_matcher_true_false.
  cbn [no_flag] in Hs.
  apply andb_true_iff in Hs as [[Ht Hf]%andb_true_iff Hs].
  apply negb_true_iff in Ht, Hf. rewrite Ht, Hf. by rewrite IH.
Qed.

(** X24: the renderer keeps the listener of an event under the type of the
    event followed by [true] or [false].  When neither word occurs in
    the [on...] name of the type, the trap finds that name again from the
    key, and a key without such a word is taken as the type itself. *)
Theorem listener_prop_name_flag type :
  no_flag ("on" +:+ capitalize type) = true →
  listener_prop_name type = "on" +:+ capitalize type
  ∧ (type ≠ "" →
     listener_prop_name (type +:+ "true") = "on" +:+ capitalize type
     ∧ listener_prop_name (type +:+ "false") = "on" +:+ capitalize type).
Proof.
  intros Hname. unfold listener_prop_name. split.
  - by apply replace_first_no_flag.
  - intros Htype. destruct type as [|c t]; [done|].
    cbn [capitalize] in *. rewrite !str_app_cons. cbn [capitalize].
    rewrite <- !str_app_cons, <- !str_app_assoc.
    split; apply replace_first_flag; auto.
Qed.

End Properties.

(** * The properties on the scenarios *)

Section Checks.

#[local] Existing Instance js_platform.






Lemma same_value_is_noop_witness :
  strict_eq (accessor_get "time" clock_with_time) (VString "x") = true
  ∧ accessor_set x_clock "time" (VString "x") clock_with_time = clock_with_time
  ∧ attributes clock_with_time !! toLowerCase "time" = Some "x"
  ∧ setAttribute x_clock "time" "x" clock_with_time = clock_with_time.
Proof.
  pose proof (same_value_is_noop x_clock "time" clock_with_time) as [Hprop Hattr].
  split_and!.
  - reflexivity.
  - refine (proj1 (Hprop (VString "x") _ _ _)); [reflexivity|discriminate|reflexivity].
  - reflexivity.
  - refine (proj1 (Hattr "x" _)). reflexivity.
Defined.

(** C6, as it is worded, fails for [undefined]: on a connected instance
    that stores nothing under [time], writing [undefined], which is what
    reading gives, sets the attribute, stores the string ["undefined"] and
    makes a call to the rendering engine. *)
Lemma write_undefined_counterexample :
  let this' := accessor_set x_clock "time" VUndefined clock_connected in
  accessor_get "time" clock_connected = VUndefined
  ∧ strict_eq (accessor_get "time" clock_connected) VUndefined = true
  ∧ accessor_get "time" this' = VString "undefined"
  ∧ _props this' ≠ _props clock_connected
  ∧ List.length (rendered this') = S (List.length (rendered clock_connected)).
Proof. by split_and!. Qed.





(** C3 on an element whose only child is a text node: the placeholder of
    the text is filed under the key ["undefined"], and the prop [children]
    is [undefined]. *)
Theorem text_child_slots :
  let this := with_childNodes text_child clock_created in
  getSlots (childNodes this) !! "" = None
  ∧ getSlots (childNodes this) !! "undefined" = Some [h_Slot None]
  ∧ connected_slots this !! "children" = Some (Given VUndefined)
  ∧ connected_slots this !! "undefined" = Some (Slotted [h_Slot None])
  ∧ _slots (connectedCallback ∅ detached_path this) = connected_slots this.
Proof. by split_and!. Qed.

(** On an element with a child in a slot named [children], that group
    takes the place of the unnamed group under the key [children]. *)
Lemma children_named_slots :
  let this := with_childNodes children_named_child clock_created in
  getSlots (childNodes this) !! "" = Some [h_Slot None]
  ∧ connected_slots this !! "children" = Some (Slotted [h_Slot (Some "children")]).
Proof. by split_and!. Qed.



End Checks.

(** * The further properties on the scenarios *)

Section MoreChecks.

#[local] Existing Instance js_platform.

Lemma toKebabCase_toCamelCase_witness :
  kebab_name "custom-date" = true
  ∧ toKebabCase (toCamelCase "custom-date") = "custom-date".
Proof.
  split; [reflexivity|]. apply (proj2 (toKebabCase_toCamelCase "custom-date" eq_refl)).
Defined.

Lemma toCamelCase_toKebabCase_witness :
  camel_name "customDate" = true
  ∧ toCamelCase (toKebabCase "customDate") = "customDate".
Proof.
  split; [reflexivity|]. apply (proj2 (toCamelCase_toKebabCase "customDate" eq_refl)).
Defined.

Lemma toCamelCase_unchanged_witness :
  no_hyphen_word "onClick-" = true ∧ toCamelCase "onClick-" = "onClick-".
Proof.
  split; [reflexivity|]. apply toCamelCase_unchanged. reflexivity.
Defined.

Lemma custom_date_observed : "custom-date" ∈ observedAttributes x_clock.
Proof. vm_compute. right. left. Qed.

Lemma clock_names_cased p :
  p ∈ supplied_names Clock (Some ["time"; "custom-date"]) →
  kebab_name p = true ∨ camel_name p = true.
Proof.
  intros [->|[->|[]%elem_of_nil]%elem_of_cons]%elem_of_cons; by left.
Qed.

Lemma observedAttributes_lower_case_witness :
  "custom-date" ∈ observedAttributes x_clock
  ∧ toLowerCase "custom-date" = "custom-date".
Proof.
  split; [exact custom_date_observed|].
  exact (proj1 (proj2 (observedAttributes_lower_case Clock "x-clock"
                         (Some ["time"; "custom-date"]) None "custom-date"
                         custom_date_observed))).
Defined.

Lemma register_cased_names_witness :
  "customDate" ∈ propNames x_clock
  ∧ ∀ a, a ∈ observedAttributes x_clock ↔ a ∈ map toKebabCase ["time"; "custom-date"].
Proof.
  pose proof (register_cased_names Clock "x-clock" (Some ["time"; "custom-date"]) None
                clock_names_cased) as (Hrec & _ & Hobs).
  split; [|exact Hobs].
  refine (proj1 (proj2 (Hrec "custom-date" _))). simpl. right. left.
Defined.

Lemma getSlots_count_witness :
  getSlots_throws children_named_child = false
  ∧ placeholder_count (getSlots children_named_child) = 2%nat.
Proof.
  split; [reflexivity|]. exact (getSlots_count children_named_child eq_refl).
Defined.

Lemma getSlots_app_filter_witness :
  getSlots_throws (text_child ++ children_named_child) = false
  ∧ getSlots (text_child ++ children_named_child) !! ""
    = getSlots children_named_child !! "".
Proof.
  split; [reflexivity|].
  exact (proj2 (proj2 (proj2 (proj2
    (getSlots_app_filter text_child children_named_child eq_refl)))) "").
Defined.

Lemma getSlots_names_witness :
  getSlots children_named_child !! "children" = Some [h_Slot (Some "children")]
  ∧ ∀ p, p ∈ [h_Slot (Some "children")] → slot_name p = Some "children".
Proof.
  assert (getSlots children_named_child !! "children" = Some [h_Slot (Some "children")])
    as Hg by reflexivity.
  split; [exact Hg|].
  intros p Hp.
  refine (proj2 (proj2 (proj2 (getSlots_names children_named_child "children" _ Hg) p Hp))
            _ _); discriminate.
Defined.

Lemma clock_live_reachable : reachable x_clock clock_live.
Proof. by exists clock_live_history. Qed.

Lemma stored_values_normalised_witness :
  reachable x_clock clock_live
  ∧ _props clock_live !! "time" = Some (VString "x")
  ∧ VString "x" ≠ VNull.
Proof.
  split; [exact clock_live_reachable|]. split; [reflexivity|].
  exact (proj1 (stored_values_normalised Clock "x-clock" (Some ["time"; "custom-date"])
                  None clock_live clock_live_reachable "time" (VString "x") eq_refl)).
Defined.

Lemma stored_keys_observed_witness :
  reachable x_clock clock_live
  ∧ ∃ a, a ∈ observedAttributes x_clock ∧ ("time" = a ∨ "time" = toCamelCase a).
Proof.
  split; [exact clock_live_reachable|].
  refine (stored_keys_observed Clock "x-clock" (Some ["time"; "custom-date"]) None
            clock_live clock_live_reachable "time" _).
  by exists (VString "x").
Defined.

Lemma tree_always_in_sync_witness :
  reachable x_clock (run_all x_clock clock_again_history clock_created)
  ∧ tree_in_sync (run_all x_clock clock_again_history clock_created).
Proof.
  assert (reachable x_clock (run_all x_clock clock_again_history clock_created)) as Hr
    by by exists clock_again_history.
  split; [exact Hr|].
  exact (proj1 (tree_always_in_sync Clock "x-clock" (Some ["time"; "custom-date"]) None
                  _ Hr)).
Defined.

Lemma updates_keep_context_witness :
  is_update (op_setAttribute "time" "y") = true
  ∧ provided_context (run x_clock (op_setAttribute "time" "y") clock_live)
    = provided_context clock_live.
Proof.
  split; [reflexivity|]. by apply updates_keep_context.
Defined.


Lemma slots_shadow_props_witness :
  getSlots_throws (childNodes clock_with_children) = false
  ∧ ∃ props,
      rendered_props (connectedCallback ∅ detached_path clock_with_children) = Some props
      ∧ props !! "children" = Some (Slotted [h_Slot (Some "children")]).
Proof.
  split; [reflexivity|].
  destruct (slots_shadow_props ∅ detached_path clock_with_children eq_refl)
    as (props & Hr & _ & Hc).
  exists props. split; [exact Hr|exact Hc].
Defined.





Lemma slot_mounted_with : mounted_with (VString "dark") 5 slot_mounted.1 slot_mounted.2.
Proof. by split_and!. Qed.

Lemma Slot_unmount_silences_witness :
  mounted_with (VString "dark") 5 slot_mounted.1 slot_mounted.2
  ∧ listeners_of
      ((Slot (h_Slot None) (VString "sunny")).2 None slot_mounted.1 slot_mounted.2).2
      5 "_preact-ctx" = [].
Proof.
  split; [exact slot_mounted_with|].
  pose proof (Slot_unmount_silences (VString "dark") (VString "sunny") 5
                slot_mounted.1 slot_mounted.2 slot_mounted_with) as Hs.
  destruct ((Slot (h_Slot None) (VString "sunny")).2 None slot_mounted.1 slot_mounted.2)
    as [this' dom'].
  exact (proj1 (proj2 Hs)).
Defined.

Lemma Slot_mount_twice_witness :
  mounted_with (VString "dark") 5 slot_mounted.1 slot_mounted.2
  ∧ (Slot (h_Slot None) (VString "sunny")).2 (Some 5) slot_mounted.1 slot_mounted.2
    = (slot_mounted.1, slot_mounted.2).
Proof.
  split; [exact slot_mounted_with|].
  exact (Slot_mount_twice (VString "dark") (VString "sunny") 5 _ _ slot_mounted_with).
Defined.



Lemma listener_prop_name_flag_witness :
  no_flag ("on" +:+ capitalize "click") = true
  ∧ listener_prop_name ("click" +:+ "false") = "onClick".
Proof.
  split; [reflexivity|].
  refine (proj2 (proj2 (listener_prop_name_flag "click" eq_refl) _)). discriminate.
Defined.

End MoreChecks.
